(** * A shallow embedding of the NTRTsim learning job masters

    [src/scripts/learning/src/jobs/LearningJobMaster.py] and
    [src/scripts/learning/src/jobs/ControllerJobMaster.py].

    Python values are modelled by [Py]; dictionaries are association
    lists with Python's update-in-place / append-new-key behaviour.
    The job master's effects (the random number generator, files written,
    lines printed, job batches handed to the scheduler) are threaded
    through the state-and-error monad [M]; a raised exception is [inl]. *)

From Stdlib Require Import ZArith NArith List String Ascii Bool Lia.
Import ListNotations.
Open Scope string_scope.
Set Warnings "-register-all".

(** ** Python values *)

(** [PFloat m k] is the float [m / 10^k]: the model covers floats whose
    shortest decimal text is their Python 2 [str], i.e. at most twelve
    significant digits and magnitude in [1e-4, 1e12). *)
Inductive Py : Type :=
| PNone
| PBool (b : bool)
| PInt (z : Z)
| PFloat (m : Z) (k : nat)
| PStr (s : string)
| PList (l : list Py)
| PDict (d : list (string * Py)).

Inductive PyErr : Type :=
| KeyError (k : string)
| IndexError
| TypeError
| ValueError
| IOError.

(** ** Dictionaries *)

Fixpoint dget (d : list (string * Py)) (k : string) : option Py :=
  match d with
  | [] => None
  | (k', v) :: d' => if String.eqb k' k then Some v else dget d' k
  end.

(** [d[k] = v]: an existing key keeps its position, a new key is appended. *)
Fixpoint dset (d : list (string * Py)) (k : string) (v : Py) : list (string * Py) :=
  match d with
  | [] => [(k, v)]
  | (k', v') :: d' =>
      if String.eqb k' k then (k', v) :: d' else (k', v') :: dset d' k v
  end.

Definition getitem (o : Py) (k : string) : PyErr + Py :=
  match o with
  | PDict d => match dget d k with Some v => inr v | None => inl (KeyError k) end
  | _ => inl TypeError
  end.

Definition setitem (o : Py) (k : string) (v : Py) : PyErr + Py :=
  match o with
  | PDict d => inr (PDict (dset d k v))
  | _ => inl TypeError
  end.

(** [x in o] for a string [x]. *)
Definition py_in (x : string) (o : Py) : PyErr + bool :=
  match o with
  | PDict d => inr (match dget d x with Some _ => true | None => false end)
  | PList l =>
      inr (existsb (fun e => match e with PStr s => String.eqb s x | _ => false end) l)
  | _ => inl TypeError
  end.

(** Iterating a value: a list yields its elements, a string its
    one-character strings, a dict its keys. *)
Fixpoint chars (s : string) : list Py :=
  match s with
  | EmptyString => []
  | String c s' => PStr (String c EmptyString) :: chars s'
  end.

Definition py_iter (o : Py) : PyErr + list Py :=
  match o with
  | PList l => inr l
  | PStr s => inr (chars s)
  | PDict d => inr (map (fun kv => PStr (fst kv)) d)
  | _ => inl TypeError
  end.

(** ** Text of numbers: Python's [str] *)

Definition digit_char (n : N) : ascii := ascii_of_N (48 + n).

Fixpoint digits_aux (fuel : nat) (n : N) (acc : string) : string :=
  match fuel with
  | O => acc
  | S f =>
      let acc' := String (digit_char (N.modulo n 10)) acc in
      if N.ltb n 10 then acc' else digits_aux f (N.div n 10) acc'
  end.

Definition str_N (n : N) : string := digits_aux (S (N.size_nat n)) n EmptyString.

Definition str_Z (z : Z) : string :=
  if Z.ltb z 0 then "-" ++ str_N (Z.to_N (- z)) else str_N (Z.to_N z).

(** The [k] fractional digits of [r], trailing zeros dropped. *)
Fixpoint frac_digits (k : nat) (r : N) : string :=
  match k with
  | O => EmptyString
  | S k' =>
      let p := N.pow 10 (N.of_nat k') in
      let rest := frac_digits k' (N.modulo r p) in
      let d := N.div r p in
      match rest with
      | EmptyString => if N.eqb d 0 then EmptyString else String (digit_char d) EmptyString
      | _ => String (digit_char d) rest
      end
  end.

Definition str_float (m : Z) (k : nat) : string :=
  let a := Z.to_N (Z.abs m) in
  let p := N.pow 10 (N.of_nat k) in
  let f := frac_digits k (N.modulo a p) in
  (if Z.ltb m 0 then "-" else "") ++ str_N (N.div a p) ++ "." ++
  (match f with EmptyString => "0" | _ => f end).

(** [str] of a value; containers use [repr] of their elements. *)
Fixpoint py_repr (v : Py) : string :=
  match v with
  | PNone => "None"
  | PBool b => if b then "True" else "False"
  | PInt z => str_Z z
  | PFloat m k => str_float m k
  | PStr s => "'" ++ s ++ "'"
  | PList l => "[" ++ String.concat ", " (map py_repr l) ++ "]"
  | PDict d =>
      "{" ++ String.concat ", "
               (map (fun kv => "'" ++ fst kv ++ "': " ++ py_repr (snd kv)) d) ++ "}"
  end.

Definition py_str (v : Py) : string :=
  match v with
  | PStr s => s
  | _ => py_repr v
  end.

(** [str.split(",")] as Python does it: [""] splits into [[""]]. *)
Fixpoint py_split (sep : ascii) (s : string) : list string :=
  match s with
  | EmptyString => [EmptyString]
  | String c s' =>
      let r := py_split sep s' in
      if Ascii.eqb c sep then EmptyString :: r
      else match r with
           | p :: ps => String c p :: ps
           | [] => [String c EmptyString]
           end
  end.

(** Python arithmetic on numbers ([bool] counts as [int]). *)
Definition num_parts (v : Py) : option (Z * nat) :=
  match v with
  | PBool b => Some (if b then 1%Z else 0%Z, O)
  | PInt z => Some (z, O)
  | PFloat m k => Some (m, k)
  | _ => None
  end.

Definition mk_num (m : Z) (k : nat) (isfloat : bool) : Py :=
  if isfloat then PFloat m k else PInt m.

Definition is_float (v : Py) : bool :=
  match v with PFloat _ _ => true | _ => false end.

Definition py_mul (a b : Py) : PyErr + Py :=
  match num_parts a, num_parts b with
  | Some (m1, k1), Some (m2, k2) =>
      inr (mk_num (m1 * m2) (k1 + k2) (is_float a || is_float b))
  | _, _ => inl TypeError
  end.

Definition py_add (a b : Py) : PyErr + Py :=
  match num_parts a, num_parts b with
  | Some (m1, k1), Some (m2, k2) =>
      inr (mk_num (m1 * 10 ^ Z.of_nat k2 + m2 * 10 ^ Z.of_nat k1) (k1 + k2)
                  (is_float a || is_float b))
  | _, _ => inl TypeError
  end.

(** [x == 0] *)
Definition py_is_zero (v : Py) : bool :=
  match num_parts v with Some (m, _) => Z.eqb m 0 | None => false end.

(** [range(n)] and [[None] * n] need an [int]; a negative one gives [[]]. *)
Definition py_count (v : Py) : PyErr + nat :=
  match v with
  | PInt z => inr (Z.to_nat z)
  | PBool b => inr (if b then 1 else 0)
  | _ => inl TypeError
  end.

(** String concatenation [a + b] where [a] must be a [str]. *)
Definition py_strval (v : Py) : PyErr + string :=
  match v with PStr s => inr s | _ => inl TypeError end.

(** ** Helper classes (helpersNew, not under src/) *)

(** Modelled from the spec: [Member] of helpersNew.  A member is its
    [components] dictionary, which also holds its [memberID] and
    [generationID] (the spec's member artifact file carries both, and
    [writeMemberToFile] reads them from [member.components]). *)
Record Member : Type := mkMember { components : Py }.

(** Modelled from the spec: [Member(memberID=id, generationID=g)]. *)
Definition newMember (id : Z) (g : Z) : Member :=
  mkMember (PDict [("memberID", PInt id); ("generationID", PInt g)]).

(** Modelled from the spec: [Generation] of helpersNew, an ID and the
    members in the order [addMember] appended them. *)
Record Generation : Type := mkGen { ID : Z; gmembers : list Member }.

Definition addMember (g : Generation) (m : Member) : Generation :=
  mkGen (ID g) (gmembers g ++ [m]).

(** Modelled from the spec: the truth value of a [Generation] ("empty
    generation, previous is falsy"). *)
Definition gen_truthy (g : Generation) : bool :=
  match gmembers g with [] => false | _ => true end.

(** ** The job master's state and effects *)

Inductive File : Type :=
| FText (s : string)
| FJson (v : Py).

(** A job description handed to the scheduler ([EvolutionJob(args)]). *)
Record Job : Type := mkJob {
  jfilename : string;
  jresourcePrefix : string;
  jpath : Py;
  jexecutable : Py;
  jlength : Py;
  jterrain : Py
}.

(** [draw]/[rng]: the random module, as its stream of draws and the
    position reached; [files]: files written, latest first; [out]: lines
    printed; [batches]: each [jobList] handed to the scheduler, in order.
    Two ghost records, written by no Python statement, note what the run
    produced for stating properties of it: [produced], the candidates the
    population generator hands on, with their component name and the
    generation ID it was called with, and [gens],
    the ID of each generation the trial loop makes active. *)
Record St : Type := mkSt {
  draw : nat -> nat;
  rng : nat;
  files : list (string * File);
  out : list string;
  produced : list (string * Z * Py);
  gens : list Z;
  batches : list (list Job)
}.

Definition M (A : Type) : Type := St -> PyErr + (A * St).

Definition ret {A} (a : A) : M A := fun s => inr (a, s).

Definition bind {A B} (m : M A) (f : A -> M B) : M B :=
  fun s => match m s with inl e => inl e | inr (a, s') => f a s' end.

Notation "x <- m ;; k" := (bind m (fun x => k))
  (at level 61, m at next level, right associativity).

Definition lift {A} (r : PyErr + A) : M A :=
  fun s => match r with inl e => inl e | inr a => inr (a, s) end.

Definition geti (o : Py) (k : string) : M Py := lift (getitem o k).

Definition modify (f : St -> St) : M unit := fun s => inr (tt, f s).

Definition write_file (path : string) (c : File) : M unit :=
  modify (fun s => mkSt (draw s) (rng s) ((path, c) :: files s) (out s)
                        (produced s) (gens s) (batches s)).

Definition print (line : string) : M unit :=
  modify (fun s => mkSt (draw s) (rng s) (files s) (out s ++ [line])
                        (produced s) (gens s) (batches s)).

Definition record_produced (name : string) (generationID : Z) (c : Py) : M unit :=
  modify (fun s => mkSt (draw s) (rng s) (files s) (out s)
                        (produced s ++ [(name, generationID, c)]) (gens s) (batches s)).

Definition record_gen (g : Z) : M unit :=
  modify (fun s => mkSt (draw s) (rng s) (files s) (out s)
                        (produced s) (gens s ++ [g]) (batches s)).

Definition submit (jobs : list Job) : M unit :=
  modify (fun s => mkSt (draw s) (rng s) (files s) (out s)
                        (produced s) (gens s) (batches s ++ [jobs])).

(** [random.choice(seq)]: [seq[int(random() * len(seq))]], an
    [IndexError] on an empty sequence. *)
Definition choice (l : list Py) : M Py :=
  fun s =>
    match l with
    | [] => inl IndexError
    | _ => inr (nth (draw s (rng s) mod List.length l) l PNone,
                mkSt (draw s) (S (rng s)) (files s) (out s) (produced s) (gens s)
                     (batches s))
    end.

Fixpoint forM {A B} (l : list A) (f : A -> M B) : M (list B) :=
  match l with
  | [] => ret []
  | x :: l' => y <- f x ;; ys <- forM l' f ;; ret (y :: ys)
  end.

(** ** The job master object *)

(** The file system as [importSeedGeneration] sees it: [os.path.isdir],
    [os.listdir], [os.path.abspath], and [open] followed by [json.load]
    ([IOError] when the path cannot be opened, e.g. a directory,
    [ValueError] when the text is not JSON). *)
Record FS : Type := mkFS {
  isdir : string -> bool;
  listdir : string -> list string;
  abspath : string -> string;
  json_load : string -> PyErr + Py
}.

(** [self]: the parsed configuration, the trial directory computed by
    [_setup], the process limit, [self.terrains] (unset is [None]) and
    the file system. *)
Record Self : Type := mkSelf {
  config : Py;
  trialDirectory : string;
  numProcesses : Z;
  selfTerrains : option Py;
  fs : FS
}.

Definition RESOURCE_DIRECTORY_NAME : string := "../../../resources/src/".
Definition NEURAL_NET_DIRECTORY_NAME : string := "NeuralNet/".

Definition PROTECTED_TERMS : list string :=
  ["PathInfo"; "TrialProperties"; "trialPath"; "fileName"; "executable";
   "seedDirectory"; "learningType"; "triallength"; "generationCount";
   "generationSize"; "scoreMethod"; "fitnessFunction"; "terrains";
   "Algorithms"; "PopulationSize"; "Ranges"].

(** The fixed terrain of the trial loop: [[[0, 0, 0, 0]]]. *)
Definition flat_terrain : Py :=
  PList [PList [PInt 0; PInt 0; PInt 0; PInt 0]].

(** The terrain step of [LearningJobMaster._setup]: [self.terrains] is
    set when the configured terrains equal ["flat"], left as it was
    otherwise. *)
Definition setup_terrains (config : Py) (old : option Py) : PyErr + option Py :=
  match getitem config "TrialProperties" with
  | inl e => inl e
  | inr tp =>
      match getitem tp "terrains" with
      | inl e => inl e
      | inr (PStr t) =>
          inr (if String.eqb t "flat" then Some (PList [flat_terrain]) else old)
      | inr _ => inr old
      end
  end.

Definition GENERAL_DIRECTORY_NAME : string := "OutputMembers/".
Definition LOG_FILE_NAME : string := "output.log".

(** What [_setup] reads from its environment: [open] and [yaml.load] of
    the configuration file (an [IOError] when it cannot be opened) and
    [os.path.abspath]. *)
Record SetupEnv : Type := mkSetupEnv {
  load_config : string -> PyErr + Py;
  env_abspath : string -> string
}.

Inductive SetupErr : Type :=
| NTRTMasterError (msg : string)
| SetupPyErr (e : PyErr).

(** The attributes [_setup] sets, and the directories it asks
    [dictTools.tryMakeDir] for, in order. *)
Record Setup : Type := mkSetup {
  s_config : Py;
  s_trialProperties : Py;
  s_trialDirectory : string;
  s_dirs : list string;
  s_logFileName : string;
  s_terrains : option Py
}.

(** [LearningJobMaster._setup]; [terrains] is [self.terrains] before the
    call, and the logging configuration is left out. *)
Definition learning_setup (env : SetupEnv) (configFileName : string) (terrains : option Py)
    : SetupErr + Setup :=
  match load_config env configFileName with
  | inl IOError => inl (NTRTMasterError "Please provide a valid configuration file")
  | inl e => inl (SetupPyErr e)
  | inr config =>
      match getitem config "TrialProperties" with
      | inl e => inl (SetupPyErr e)
      | inr trialProperties =>
          match getitem config "PathInfo" with
          | inl e => inl (SetupPyErr e)
          | inr pathInfo =>
              match getitem pathInfo "trialPath" with
              | inl e => inl (SetupPyErr e)
              | inr (PStr trialPath) =>
                  let trialDirectory :=
                    env_abspath env (RESOURCE_DIRECTORY_NAME ++ trialPath) in
                  let dirs := [trialDirectory; trialDirectory ++ "/" ++ GENERAL_DIRECTORY_NAME] in
                  let logFileName := trialDirectory ++ "/" ++ LOG_FILE_NAME in
                  match setup_terrains config terrains with
                  | inl e => inl (SetupPyErr e)
                  | inr t => inr (mkSetup config trialProperties trialDirectory dirs
                                          logFileName t)
                  end
              | inr _ => inl (SetupPyErr TypeError)
              end
          end
      end
  end.

(** [ControllerJobMaster._setup]: the parent's setup, then the directory
    of the neural network files. *)
Definition controller_setup (env : SetupEnv) (configFileName : string) (terrains : option Py)
    : SetupErr + Setup :=
  match learning_setup env configFileName terrains with
  | inl e => inl e
  | inr st =>
      let neuralNetDirectory := s_trialDirectory st ++ "/" ++ NEURAL_NET_DIRECTORY_NAME in
      inr (mkSetup (s_config st) (s_trialProperties st) (s_trialDirectory st)
                   (s_dirs st ++ [neuralNetDirectory]) (s_logFileName st) (s_terrains st))
  end.

(** The job master after [_setup], with its process limit and file system. *)
Definition self_of_setup (st : Setup) (numProcesses : Z) (fsys : FS) : Self :=
  mkSelf (s_config st) (s_trialDirectory st) numProcesses (s_terrains st) fsys.

(** [LearningJobMaster.getComponents] *)
Definition getComponents (config : Py) : M (list (string * Py)) :=
  match config with
  | PDict d =>
      ret (filter (fun kv => negb (existsb (String.eqb (fst kv)) PROTECTED_TERMS)) d)
  | _ => lift (inl TypeError)
  end.

(** [LearningJobMaster.getNewGenerationID] *)
Definition getNewGenerationID (previousGeneration : Generation) : Z :=
  if gen_truthy previousGeneration then (ID previousGeneration + 1)%Z else (-1)%Z.

(** The inner loop of [createNewGeneration]: one [random.choice] per
    component, in the dictionary's order. *)
Fixpoint attach_components (comps : Py) (pops : list (string * list Py)) : M Py :=
  match pops with
  | [] => ret comps
  | (component, population) :: rest =>
      randomPopulation <- choice population ;;
      comps' <- lift (setitem comps component randomPopulation) ;;
      attach_components comps' rest
  end.

(** [LearningJobMaster.createNewGeneration]; the dictionary
    [componentPopulations] is the association list of its items. *)
Definition createNewGeneration (config : Py) (componentPopulations : list (string * list Py))
    (generationID : Z) : M Generation :=
  tp <- geti config "TrialProperties" ;;
  gs <- geti tp "generationSize" ;;
  n <- lift (py_count gs) ;;
  ms <- forM (seq 0 n) (fun id =>
          let m := newMember (Z.of_nat id) generationID in
          comps <- attach_components (components m) componentPopulations ;;
          ret (mkMember comps)) ;;
  ret (fold_left addMember ms (mkGen generationID [])).

Definition SEED_WARNING : string :=
  "Trying to import from a seed directory that is not a seed directory. Check the seedDirectory element in PathInfo.".

(** [LearningJobMaster.importSeedGeneration]; the [logging.info] calls
    are left out. *)
Definition importSeedGeneration (self : Self) : M Generation :=
  pi <- geti (config self) "PathInfo" ;;
  sdv <- geti pi "seedDirectory" ;;
  seedDirectory <- lift (py_strval sdv) ;;
  if isdir (fs self) seedDirectory then
    ms <- forM (listdir (fs self) seedDirectory) (fun file =>
            let absFilePath := abspath (fs self) seedDirectory ++ "/" ++ file in
            seedInput <- lift (json_load (fs self) absFilePath) ;;
            ret (mkMember seedInput)) ;;
    ret (fold_left addMember ms (mkGen (-1) []))
  else
    _ <- print SEED_WARNING ;;
    ret (mkGen (-1) []).

(** [LearningJobMaster.getPreviousComponentGeneration]: the candidate of
    [component] of every member, in member order. *)
Definition getPreviousComponentGeneration (component : string)
    (previousGeneration : Generation) : M (list Py) :=
  if Nat.ltb 0 (List.length (gmembers previousGeneration)) then
    forM (gmembers previousGeneration) (fun member => geti (components member) component)
  else ret [].

(** [LearningJobMaster.writeMemberToFile]; [json.dump] is recorded as the
    value dumped. *)
Definition writeMemberToFile (self : Self) (member : Member) : M string :=
  let comps := components member in
  pi <- geti (config self) "PathInfo" ;;
  fnv <- geti pi "fileName" ;;
  fn <- lift (py_strval fnv) ;;
  gid <- geti comps "generationID" ;;
  mid <- geti comps "memberID" ;;
  let basename := fn ++ "_" ++ py_str gid ++ "_" ++ py_str mid ++ ".json" in
  _ <- write_file (trialDirectory self ++ "/" ++ basename) (FJson comps) ;;
  ret basename.

(** The body of the terrain loop of [beginTrialMaster] for one member:
    the loop variable is overwritten with the flat terrain. *)
Definition terrain_job (self : Self) (fileName : string) (terrain : Py) : M Job :=
  let terrain := flat_terrain in
  pi <- geti (config self) "PathInfo" ;;
  path <- geti pi "trialPath" ;;
  executable <- geti pi "executable" ;;
  tp <- geti (config self) "TrialProperties" ;;
  len <- geti tp "trialLength" ;;
  ret (mkJob fileName RESOURCE_DIRECTORY_NAME path executable len terrain).

(** The member loop of [beginTrialMaster], appending to [jobList]. *)
Fixpoint member_jobs (self : Self) (members : list Member) (jobList : list Job)
    : M (list Job) :=
  match members with
  | [] => ret jobList
  | member :: rest =>
      fileName <- writeMemberToFile self member ;;
      tp <- geti (config self) "TrialProperties" ;;
      tv <- geti tp "terrains" ;;
      terrains <- lift (py_iter tv) ;;
      jobs <- forM terrains (terrain_job self fileName) ;;
      member_jobs self rest (jobList ++ jobs)
  end.

(** The generation loop of [beginTrialMaster]: [jobList] is the one list
    created before the loop; each iteration hands it to the scheduler
    ([ConcurrentScheduler(jobList, ...).processJobs()], recorded in
    [batches]; reading the jobs' output back is the scheduler's side). *)
Fixpoint trial_loop (self : Self) (genFn : Generation -> M Generation) (n : nat)
    (previousGeneration : Generation) (jobList : list Job) : M Generation :=
  match n with
  | O => ret previousGeneration
  | S n' =>
      activeGeneration <- genFn previousGeneration ;;
      _ <- record_gen (ID activeGeneration) ;;
      jobList' <- member_jobs self (gmembers activeGeneration) jobList ;;
      _ <- submit jobList' ;;
      trial_loop self genFn n' activeGeneration jobList'
  end.

(** [LearningJobMaster.beginTrialMaster]; returns the last generation. *)
Definition beginTrialMaster (self : Self) (genFn : Generation -> M Generation)
    : M Generation :=
  tp <- geti (config self) "TrialProperties" ;;
  gc <- geti tp "generationCount" ;;
  _ <- geti tp "generationSize" ;;
  n <- lift (py_count gc) ;;
  previousGeneration <- importSeedGeneration self ;;
  trial_loop self genFn n previousGeneration [].

(** ** ControllerJobMaster *)

(** The text [writeToNNW] writes: [str(x)] for the first element,
    [",") + str(x)] for each later one. *)
Fixpoint nnw_text (first : bool) (xs : list Py) : string :=
  match xs with
  | [] => EmptyString
  | x :: rest =>
      (if first then py_str x else "," ++ py_str x) ++ nnw_text false rest
  end.

(** [ControllerJobMaster.writeToNNW] *)
Definition writeToNNW (neuralParams : Py) (fileName : string) : M unit :=
  xs <- lift (py_iter neuralParams) ;;
  write_file fileName (FText (nnw_text true xs)).

(** [ControllerJobMaster.getNonNNParams] *)
Definition getNonNNParams (neuralNet : Py) : M Py :=
  numInstances <- geti neuralNet "numberOfInstances" ;;
  numOutputs <- geti neuralNet "numberOfOutputs" ;;
  ni <- lift (py_count numInstances) ;;
  no <- lift (py_count numOutputs) ;;
  ret (PDict [("params", PList (repeat (PList (repeat PNone no)) ni))]).

(** [ControllerJobMaster.getNNParams] *)
Definition getNNParams (neuralNet : Py) : M Py :=
  numOutputs <- geti neuralNet "numberOfOutputs" ;;
  numStates <- geti neuralNet "numberOfStates" ;;
  numHidden <- geti neuralNet "numberOfHidden" ;;
  s1 <- lift (py_add numStates (PInt 1)) ;;
  a <- lift (py_mul s1 numHidden) ;;
  h1 <- lift (py_add numHidden (PInt 1)) ;;
  b <- lift (py_mul h1 numOutputs) ;;
  totalParams <- lift (py_add a b) ;;
  n <- lift (py_count totalParams) ;;
  ret (PDict [("params", PDict [("neuralParams", PList (repeat PNone n));
                                ("numActions", numOutputs);
                                ("numStates", numStates);
                                ("numHidden", numHidden)])]).

(** [ControllerJobMaster.createEmptyComponent] *)
Definition createEmptyComponent (component : string) (neuralNet : Py) (generationID : Z)
    : M Py :=
  ns <- geti neuralNet "numberOfStates" ;;
  emptyComponent <- (if py_is_zero ns then getNonNNParams neuralNet
                     else getNNParams neuralNet) ;;
  lift (setitem emptyComponent "generationID" (PInt generationID)).

(** The pluggable learning algorithm [dispatchLearning] (module
    [algorithms], outside the repository's core): from the component
    name, component dictionary, template and previous generation it
    returns the raw population, drawing from the random module. *)
Definition Learner : Type :=
  string -> Py -> Py -> Generation -> (nat -> nat) -> nat -> PyErr + (list Py * nat).

Definition call_learner (dispatchLearning : Learner) (name : string) (dict templ : Py)
    (prev : Generation) : M (list Py) :=
  fun s =>
    match dispatchLearning name dict templ prev (draw s) (rng s) with
    | inl e => inl e
    | inr (l, r) => inr (l, mkSt (draw s) r (files s) (out s) (produced s) (gens s)
                                 (batches s))
    end.

(** The body of the post-processing loop of
    [generateComponentPopulation] for one candidate, updated in place. *)
Definition postprocess (self : Self) (componentName : string) (generationID : Z)
    (component : Py) : M Py :=
  cfg <- geti (config self) componentName ;;
  populationSize <- geti cfg "PopulationSize" ;;
  a <- lift (py_mul populationSize (PInt generationID)) ;;
  popID <- geti component "populationID" ;;
  paramID <- lift (py_add a popID) ;;
  c1 <- lift (setitem component "paramID" paramID) ;;
  c2 <- lift (setitem c1 "scores" (PList [])) ;;
  params <- geti c2 "params" ;;
  hasHidden <- lift (py_in "numHidden" params) ;;
  if hasHidden then
    pi <- geti (config self) "PathInfo" ;;
    fnv <- geti pi "fileName" ;;
    fn <- lift (py_strval fnv) ;;
    gen <- geti c2 "generationID" ;;
    pid <- geti c2 "populationID" ;;
    let baseFileName :=
      fn ++ "_" ++ componentName ++ "_" ++ py_str gen ++ "_" ++ py_str pid ++ ".nnw" in
    let fileName :=
      trialDirectory self ++ "/" ++ NEURAL_NET_DIRECTORY_NAME ++ baseFileName in
    np <- geti params "neuralParams" ;;
    _ <- writeToNNW np fileName ;;
    params' <- lift (setitem params "neuralFilename"
                       (PStr (NEURAL_NET_DIRECTORY_NAME ++ baseFileName))) ;;
    lift (setitem c2 "params" params')
  else ret c2.

(** [ControllerJobMaster.generateComponentPopulation]; every candidate
    handed on is also noted in the ghost record [produced]. *)
Definition generateComponentPopulation (self : Self) (dispatchLearning : Learner)
    (componentName : string) (components : list (string * Py))
    (previousGeneration : Generation) (generationID : Z) : M (list Py) :=
  componentDictionary <- lift (match dget components componentName with
                               | Some v => inr v
                               | None => inl (KeyError componentName) end) ;;
  nn <- geti componentDictionary "NeuralNetwork" ;;
  emptyComponent <- createEmptyComponent componentName nn generationID ;;
  componentPopulation <- call_learner dispatchLearning componentName componentDictionary
                           emptyComponent previousGeneration ;;
  forM componentPopulation (fun component =>
    c <- postprocess self componentName generationID component ;;
    _ <- record_produced componentName generationID c ;;
    ret c).

(** [ControllerJobMaster.generateComponentPopulations] *)
Definition generateComponentPopulations (self : Self) (dispatchLearning : Learner)
    (componentDictionary : list (string * Py)) (previousGeneration : Generation)
    (generationID : Z) : M (list (string * list Py)) :=
  forM componentDictionary (fun kv =>
    population <- generateComponentPopulation self dispatchLearning (fst kv)
                    componentDictionary previousGeneration generationID ;;
    ret (fst kv, population)).

(** [ControllerJobMaster.generationGenerator] *)
Definition generationGenerator (self : Self) (dispatchLearning : Learner)
    (previousGeneration : Generation) : M Generation :=
  components <- getComponents (config self) ;;
  let generationID := getNewGenerationID previousGeneration in
  componentPopulations <- generateComponentPopulations self dispatchLearning components
                            previousGeneration generationID ;;
  createNewGeneration (config self) componentPopulations generationID.

(** [ControllerJobMaster.beginTrial] *)
Definition beginTrial (self : Self) (dispatchLearning : Learner) : M Generation :=
  beginTrialMaster self (generationGenerator self dispatchLearning).

(** [self] with [self.terrains] set to [t]. *)
Definition with_terrains (self : Self) (t : option Py) : Self :=
  mkSelf (config self) (trialDirectory self) (numProcesses self) t (fs self).

(** The number of items iterating a value yields (0 when it cannot be
    iterated). *)
Definition iter_length (v : Py) : nat :=
  match py_iter v with inr l => List.length l | inl _ => 0 end.

(** Each batch of [bs] extends the one before it, the first extending
    [prev]. *)
Fixpoint extends_chain (prev : list Job) (bs : list (list Job)) : Prop :=
  match bs with
  | [] => True
  | b :: rest => (exists d, b = (prev ++ d)%list) /\ extends_chain b rest
  end.

(** What the trial assumes of the learner ([dispatchLearning]): the
    candidates it returns for a component carry distinct int
    [populationID]s in [[0, PopulationSize)], [PopulationSize] being the
    one of the component dictionary it is handed. *)
Definition learner_ok (dl : Learner) : Prop :=
  forall name dict templ prev dr r l r',
    dl name dict templ prev dr r = inr (l, r') ->
    exists P, getitem dict "PopulationSize" = inr (PInt P) /\
      Forall (fun c => exists i, getitem c "populationID" = inr (PInt i) /\ (0 <= i < P)%Z) l /\
      NoDup (map (fun c => getitem c "populationID") l).

(** A recorded candidate [(componentName, generationID, c)] carries
    [paramID = PopulationSize * generationID + populationID], with
    [populationID] in [[0, PopulationSize)]. *)
Definition paramID_ok (config : Py) (e : string * Z * Py) : Prop :=
  let '(name, generationID, c) := e in
  exists cfg P i, getitem config name = inr cfg /\
    getitem cfg "PopulationSize" = inr (PInt P) /\ (0 <= i < P)%Z /\
    getitem c "populationID" = inr (PInt i) /\
    getitem c "paramID" = inr (PInt (P * generationID + i)).

(** A recorded candidate's component, generation and [populationID]. *)
Definition candidate_key (e : string * Z * Py) : string * Z * (PyErr + Py) :=
  (fst (fst e), snd (fst e), getitem (snd e) "populationID").

(** A recorded candidate's component and [paramID]. *)
Definition paramID_key (e : string * Z * Py) : string * (PyErr + Py) :=
  (fst (fst e), getitem (snd e) "paramID").

(** ** Concrete inputs *)

(** A learner that returns, for each index [i] below the component's
    [PopulationSize], the template tagged with [populationID = i]. *)
Definition indexLearner : Learner :=
  fun name dict templ prev dr r =>
    match getitem dict "PopulationSize", templ with
    | inr (PInt P), PDict d =>
        inr (map (fun i => PDict (dset d "populationID" (PInt (Z.of_nat i))))
                 (seq 0 (Z.to_nat P)), r)
    | inl e, _ => inl e
    | _, _ => inl TypeError
    end.

(** The configuration of the spec's end-to-end scenario: a component
    ["leg"] without a neural network and a component ["brain"] with
    2 states, 2 hidden units and 1 output, both of population size 3. *)
Definition ex_config (generationCount generationSize : Z) (terrains : Py) : Py :=
  PDict [
    ("PathInfo", PDict [("trialPath", PStr "trial"); ("fileName", PStr "f");
                        ("executable", PStr "sim"); ("seedDirectory", PStr "seeds")]);
    ("TrialProperties", PDict [("generationCount", PInt generationCount);
                               ("generationSize", PInt generationSize);
                               ("trialLength", PInt 100); ("terrains", terrains)]);
    ("leg", PDict [("PopulationSize", PInt 3);
                   ("NeuralNetwork", PDict [("numberOfStates", PInt 0);
                                            ("numberOfInstances", PInt 2);
                                            ("numberOfOutputs", PInt 2)])]);
    ("brain", PDict [("PopulationSize", PInt 3);
                     ("NeuralNetwork", PDict [("numberOfStates", PInt 2);
                                              ("numberOfHidden", PInt 2);
                                              ("numberOfOutputs", PInt 1)])])].

(** A file system without the seed directory. *)
Definition ex_fs_noseed : FS :=
  mkFS (fun _ => false) (fun _ => []) (fun p => p) (fun _ => inl IOError).

(** A file system whose seed directory ["seeds"] holds one member file. *)
Definition ex_seed_member : Py :=
  PDict [("memberID", PInt 0); ("generationID", PInt (-1))].

Definition ex_fs_seed : FS :=
  mkFS (fun d => String.eqb d "seeds")
       (fun d => if String.eqb d "seeds" then ["m0.json"] else [])
       (fun p => "/data/" ++ p)
       (fun p => if String.eqb p "/data/seeds/m0.json" then inr ex_seed_member
                 else inl IOError).

Definition ex_self (generationCount generationSize : Z) (terrains : Py) (fs : FS) : Self :=
  mkSelf (ex_config generationCount generationSize terrains) "/res/trial" 4 None fs.

Definition ex_st0 : St := mkSt (fun k => k) 0 [] [] [] [] [].

(** A file system whose seed directory ["seeds"] holds a member file and
    a file that is not JSON. *)
Definition ex_fs_badseed : FS :=
  mkFS (fun d => String.eqb d "seeds")
       (fun d => if String.eqb d "seeds" then ["m0.json"; "notes.txt"] else [])
       (fun p => "/data/" ++ p)
       (fun p => if String.eqb p "/data/seeds/m0.json" then inr ex_seed_member
                 else inl ValueError).

(** A setup environment whose configuration file ["trial.yaml"] holds
    [ex_config 2 1 ["hilly"]]. *)
Definition ex_env : SetupEnv :=
  mkSetupEnv (fun f => if String.eqb f "trial.yaml"
                       then inr (ex_config 2 1 (PList [PStr "hilly"])) else inl IOError)
             (fun p => "/abs/" ++ p).

(** A candidate of the component ["brain"] (it has [numHidden]) as the
    learner hands it to the post-processing. *)
Definition ex_brain_candidate : Py :=
  PDict [("populationID", PInt 1); ("generationID", PInt 0);
         ("params", PDict [("neuralParams", PList [PInt 1; PInt 2; PInt 3]);
                           ("numHidden", PInt 2)]);
         ("scores", PList [PInt 9])].

(** The file name [writeMemberToFile] gives member [i] of generation [g]. *)
Definition member_file_name (fn : string) (g : Z) (i : nat) : string :=
  fn ++ "_" ++ py_str (PInt g) ++ "_" ++ py_str (PInt (Z.of_nat i)) ++ ".json".

(** ** Observations on the effects *)

(** A step is [quiet] when it leaves the ghost records and the submitted
    batches as they were. *)
Definition quiet {A} (m : M A) : Prop :=
  forall s a s', m s = inr (a, s') ->
    produced s' = produced s /\ gens s' = gens s /\ batches s' = batches s.

(** Steps that leave the submitted batches as they were. *)
Definition keeps_batches {A} (m : M A) : Prop :=
  forall s a s', m s = inr (a, s') -> batches s' = batches s.

(** Steps that leave the record of active generations as it was. *)
Definition keeps_gens {A} (m : M A) : Prop :=
  forall s a s', m s = inr (a, s') -> gens s' = gens s.

Fixpoint has_char (c : ascii) (s : string) : bool :=
  match s with
  | EmptyString => false
  | String c' s' => Ascii.eqb c' c || has_char c s'
  end.

Definition is_number (v : Py) : Prop :=
  match v with PInt _ | PFloat _ _ => True | _ => False end.

(** The shape of one assembled member, for a population mapping [pops]. *)
Definition member_ok (pops : list (string * list Py)) (m : Member) : Prop :=
  exists d, components m = PDict d /\ NoDup (map fst d) /\
    (forall c pop, In (c, pop) pops -> exists x, dget d c = Some x /\ In x pop) /\
    (forall k, In k (map fst d) <-> In k ["memberID"; "generationID"] \/ In k (map fst pops)).

(** Steps whose only effect on the files is to write new ones, each
    satisfying [P]. *)
Definition writes (P : string * File -> Prop) {A} (m : M A) : Prop :=
  forall s a s', m s = inr (a, s') ->
    exists new, files s' = (new ++ files s)%list /\ Forall P new.

(** The files a trial of a job master whose trial directory is [td] may
    write: JSON files in [td], text files in [td/NeuralNet/]. *)
Definition trial_file (td : string) (e : string * File) : Prop :=
  (exists b v, fst e = td ++ "/" ++ b /\ snd e = FJson v) \/
  (exists b t, fst e = td ++ "/" ++ NEURAL_NET_DIRECTORY_NAME ++ b /\ snd e = FText t).

(** Every job of [jl] names a JSON file written in [td] (in the file list
    [fl]). *)
Definition jobs_written (td : string) (fl : list (string * File)) (jl : list Job) : Prop :=
  Forall (fun j => exists v, In (td ++ "/" ++ jfilename j, FJson v) fl) jl.

(** A recorded candidate [(componentName, generationID, c)] carries the
    [paramID] [populationSize * generationID + component["populationID"]]
    computes with Python's [*] and [+], [populationSize] being the
    component's configured [PopulationSize]. *)
Definition paramID_formula (config : Py) (e : string * Z * Py) : Prop :=
  let '(name, generationID, c) := e in
  exists cfg P popID a paramID,
    getitem config name = inr cfg /\ getitem cfg "PopulationSize" = inr P /\
    getitem c "populationID" = inr popID /\
    py_mul P (PInt generationID) = inr a /\ py_add a popID = inr paramID /\
    getitem c "paramID" = inr paramID.

(** Steps whose only effect on the record of produced candidates is to
    add new ones, each satisfying [P]. *)
Definition records (P : string * Z * Py -> Prop) {A} (m : M A) : Prop :=
  forall s a s', m s = inr (a, s') ->
    exists new, produced s' = (produced s ++ new)%list /\ Forall P new.

(** ** Reasoning about the monad *)

Lemma bind_inr {A B} (m : M A) (f : A -> M B) s b s'' :
  bind m f s = inr (b, s'') -> exists a s', m s = inr (a, s') /\ f a s' = inr (b, s'').
Proof. unfold bind. destruct (m s) as [e|[a s']]; [discriminate|eauto]. Qed.

Lemma lift_inr {A} (r : PyErr + A) s a s' : lift r s = inr (a, s') -> r = inr a /\ s' = s.
Proof. unfold lift. destruct r; intros H; inversion H; auto. Qed.

Lemma ret_inr {A} (x : A) s a s' : ret x s = inr (a, s') -> a = x /\ s' = s.
Proof. unfold ret. intros H; inversion H; auto. Qed.

Lemma modify_inr f s a s' : modify f s = inr (a, s') -> s' = f s.
Proof. unfold modify. intros H; inversion H; auto. Qed.

Lemma bind_step {A B} (m : M A) (f : A -> M B) s a s' :
  m s = inr (a, s') -> bind m f s = f a s'.
Proof. intros H. unfold bind. rewrite H. reflexivity. Qed.

Ltac decomp :=
  repeat match goal with
  | H : bind _ _ _ = inr _ |- _ =>
      let a := fresh "a" in let s := fresh "s" in let Hm := fresh "Hm" in
      apply bind_inr in H; destruct H as (a & s & Hm & H); cbv beta in H
  | H : geti _ _ _ = inr _ |- _ => unfold geti in H
  | H : lift _ _ = inr _ |- _ => apply lift_inr in H; destruct H as [H ?]; subst
  | H : ret _ _ = inr _ |- _ => apply ret_inr in H; destruct H; subst
  | H : modify _ _ = inr _ |- _ => apply modify_inr in H; subst
  | H : inr _ = inr _ |- _ => injection H as H; subst
  end.

Lemma forM_inr {A B} (f : A -> M B) l s ys s' :
  forM l f s = inr (ys, s') -> List.length ys = List.length l.
Proof.
  revert s ys. induction l as [|x l IH]; intros s ys H; simpl in H; decomp; simpl; auto.
  f_equal. eapply IH; eauto.
Qed.

Lemma quiet_ret {A} (x : A) : quiet (ret x).
Proof. intros s a s' H; decomp; auto. Qed.

Lemma quiet_lift {A} (r : PyErr + A) : quiet (lift r).
Proof. intros s a s' H; decomp; auto. Qed.

Lemma quiet_geti o k : quiet (geti o k).
Proof. apply quiet_lift. Qed.

Lemma quiet_bind {A B} (m : M A) (f : A -> M B) :
  quiet m -> (forall a, quiet (f a)) -> quiet (bind m f).
Proof.
  intros Hm Hf s b s'' H; decomp.
  destruct (Hm _ _ _ Hm0) as (? & ? & ?); destruct (Hf _ _ _ _ H) as (? & ? & ?).
  repeat split; congruence.
Qed.

Lemma quiet_forM {A B} (f : A -> M B) l : (forall x, quiet (f x)) -> quiet (forM l f).
Proof.
  intros Hf. induction l as [|x l IH]; simpl.
  - apply quiet_ret.
  - apply quiet_bind; [apply Hf|intros y]. apply quiet_bind; [apply IH|intros; apply quiet_ret].
Qed.

Lemma quiet_write_file p c : quiet (write_file p c).
Proof. intros s a s' H; unfold write_file in H; decomp; auto. Qed.

Lemma quiet_print l : quiet (print l).
Proof. intros s a s' H; unfold print in H; decomp; auto. Qed.

Lemma quiet_choice l : quiet (choice l).
Proof.
  intros s a s' H; unfold choice in H; destruct l; [discriminate|].
  injection H as _ <-; auto.
Qed.

Lemma quiet_call_learner dl n d t p : quiet (call_learner dl n d t p).
Proof.
  intros s a s' H; unfold call_learner in H.
  destruct (dl n d t p (draw s) (rng s)) as [|[l r]]; [discriminate|].
  injection H as _ <-; auto.
Qed.

Create HintDb quiet_db.
#[export] Hint Resolve quiet_ret quiet_lift quiet_geti quiet_write_file quiet_print
  quiet_choice quiet_call_learner : quiet_db.

Ltac quiet_tac :=
  repeat first
    [ progress (auto with quiet_db)
    | apply quiet_bind; intros
    | apply quiet_forM; intros
    | match goal with |- quiet (if ?b then _ else _) => destruct b end
    | match goal with |- quiet (match ?x with _ => _ end) => destruct x end ].

Lemma quiet_attach_components comps pops : quiet (attach_components comps pops).
Proof.
  revert comps. induction pops as [|[c pop] pops IH]; intros comps; simpl; quiet_tac.
Qed.
#[export] Hint Resolve quiet_attach_components : quiet_db.

Lemma quiet_createNewGeneration cfg pops g : quiet (createNewGeneration cfg pops g).
Proof. unfold createNewGeneration; quiet_tac. Qed.

Lemma quiet_importSeedGeneration self : quiet (importSeedGeneration self).
Proof. unfold importSeedGeneration; quiet_tac. Qed.

Lemma quiet_writeMemberToFile self m : quiet (writeMemberToFile self m).
Proof. unfold writeMemberToFile; quiet_tac. Qed.

Lemma quiet_terrain_job self f t : quiet (terrain_job self f t).
Proof. unfold terrain_job; quiet_tac. Qed.
#[export] Hint Resolve quiet_createNewGeneration quiet_importSeedGeneration
  quiet_writeMemberToFile quiet_terrain_job : quiet_db.

Lemma quiet_member_jobs self ms jl : quiet (member_jobs self ms jl).
Proof. revert jl; induction ms; intros; simpl; quiet_tac. Qed.

Lemma quiet_writeToNNW np f : quiet (writeToNNW np f).
Proof. unfold writeToNNW; quiet_tac. Qed.

Lemma quiet_createEmptyComponent c nn g : quiet (createEmptyComponent c nn g).
Proof. unfold createEmptyComponent, getNonNNParams, getNNParams; quiet_tac. Qed.
#[export] Hint Resolve quiet_member_jobs quiet_writeToNNW quiet_createEmptyComponent
  : quiet_db.

Lemma quiet_postprocess self n g c : quiet (postprocess self n g c).
Proof. unfold postprocess; quiet_tac. Qed.

Lemma quiet_getComponents cfg : quiet (getComponents cfg).
Proof. unfold getComponents; quiet_tac. Qed.
#[export] Hint Resolve quiet_postprocess quiet_getComponents : quiet_db.

(** ** Dictionaries *)

Lemma dget_dset_eq d k v : dget (dset d k v) k = Some v.
Proof.
  induction d as [|[k' v'] d IH]; simpl.
  - rewrite String.eqb_refl; reflexivity.
  - destruct (String.eqb k' k) eqn:E; simpl; rewrite ?E; auto.
Qed.

Lemma dget_dset_neq d k k' v : k <> k' -> dget (dset d k v) k' = dget d k'.
Proof.
  intros Hne. induction d as [|[k0 v0] d IH]; simpl.
  - destruct (String.eqb k k') eqn:E; auto. apply String.eqb_eq in E; congruence.
  - destruct (String.eqb k0 k) eqn:E; simpl.
    + apply String.eqb_eq in E; subst.
      destruct (String.eqb k k') eqn:E'; auto. apply String.eqb_eq in E'; congruence.
    + destruct (String.eqb k0 k'); auto.
Qed.

Lemma keys_dset d k v x : In x (map fst (dset d k v)) <-> In x (map fst d) \/ x = k.
Proof.
  induction d as [|[k' v'] d IH]; simpl.
  - intuition.
  - destruct (String.eqb k' k) eqn:E; simpl.
    + apply String.eqb_eq in E; subst. intuition.
    + rewrite IH. intuition.
Qed.

Lemma nodup_dset d k v : NoDup (map fst d) -> NoDup (map fst (dset d k v)).
Proof.
  induction d as [|[k' v'] d IH]; simpl; intros Hnd.
  - constructor; [simpl; tauto|constructor].
  - inversion Hnd as [|? ? Hni Hnd']; subst.
    destruct (String.eqb k' k) eqn:E; simpl; constructor; auto.
    rewrite keys_dset. intros [H|H]; [tauto|]. subst. rewrite String.eqb_refl in E. discriminate.
Qed.

Lemma getitem_setitem_neq o k k' v o' :
  setitem o k v = inr o' -> k <> k' -> getitem o' k' = getitem o k'.
Proof.
  destruct o; simpl; intros H Hne; try discriminate.
  injection H as <-. simpl. rewrite dget_dset_neq; auto.
Qed.

Lemma getitem_setitem_eq o k v o' : setitem o k v = inr o' -> getitem o' k = inr v.
Proof.
  destruct o; simpl; intros H; try discriminate.
  injection H as <-. simpl. rewrite dget_dset_eq; auto.
Qed.

Lemma py_add_int a b : py_add (PInt a) (PInt b) = inr (PInt (a + b)).
Proof. unfold py_add; simpl. rewrite !Z.mul_1_r. reflexivity. Qed.

Lemma py_mul_int a b : py_mul (PInt a) (PInt b) = inr (PInt (a * b)).
Proof. reflexivity. Qed.

Open Scope Z_scope.

(** ** C7: the template candidate *)

(** C7: for a component whose [numberOfStates] is 0 the template is a
    list of [numberOfInstances] lists of [numberOfOutputs] [None]s;
    otherwise it is a vector of [(s+1)*h + (h+1)*o] [None]s with the
    topology recorded as [numActions], [numStates] and [numHidden]. *)
Theorem createEmptyComponent_template (component : string) (nn : Py) (g : Z) (s : St)
    (ns no : Z) :
  getitem nn "numberOfStates" = inr (PInt ns) ->
  getitem nn "numberOfOutputs" = inr (PInt no) -> 0 <= no ->
  (ns = 0 -> forall ni, getitem nn "numberOfInstances" = inr (PInt ni) -> 0 <= ni ->
     createEmptyComponent component nn g s =
       inr (PDict [("params", PList (repeat (PList (repeat PNone (Z.to_nat no)))
                                            (Z.to_nat ni)));
                   ("generationID", PInt g)], s)
     /\ Z.of_nat (List.length (repeat (PList (repeat PNone (Z.to_nat no))) (Z.to_nat ni))) = ni
     /\ Z.of_nat (List.length (repeat PNone (Z.to_nat no))) = no) /\
  (ns <> 0 -> forall nh, getitem nn "numberOfHidden" = inr (PInt nh) -> 0 <= ns -> 0 <= nh ->
     createEmptyComponent component nn g s =
       inr (PDict [("params",
                    PDict [("neuralParams",
                            PList (repeat PNone (Z.to_nat ((ns + 1) * nh + (nh + 1) * no))));
                           ("numActions", PInt no); ("numStates", PInt ns);
                           ("numHidden", PInt nh)]);
                   ("generationID", PInt g)], s)
     /\ Z.of_nat (List.length (repeat PNone (Z.to_nat ((ns + 1) * nh + (nh + 1) * no))))
        = (ns + 1) * nh + (nh + 1) * no).
Proof.
  intros Hs Ho Hno. split.
  - intros -> ni Hi Hni.
    unfold createEmptyComponent, getNonNNParams, geti, bind, lift, ret.
    rewrite Hs, Hi, Ho. simpl. rewrite !repeat_length. repeat split; lia.
  - intros Hns nh Hh Hns' Hnh.
    unfold createEmptyComponent, getNNParams, geti, bind, lift, ret.
    rewrite Hs, Hh, Ho. unfold py_is_zero; simpl num_parts.
    destruct (Z.eqb ns 0) eqn:E; [apply Z.eqb_eq in E; contradiction|].
    rewrite !py_add_int, !py_mul_int, py_add_int. simpl. rewrite E.
    rewrite repeat_length. split; [reflexivity|]. nia.
Qed.

(** ** C6: the neural weight file *)

Lemma has_char_app c a b : has_char c (a ++ b) = has_char c a || has_char c b.
Proof. induction a as [|x a IH]; simpl; [reflexivity|]. rewrite IH, orb_assoc. reflexivity. Qed.

Lemma str_app_empty_r a : a ++ EmptyString = a.
Proof. induction a as [|x a IH]; simpl; congruence. Qed.

Lemma digit_char_not_comma d : (d < 10)%N -> Ascii.eqb (digit_char d) ","%char = false.
Proof.
  intros Hd. apply Ascii.eqb_neq. unfold digit_char. intros E.
  apply (f_equal N_of_ascii) in E. rewrite N_ascii_embedding in E by lia.
  change (N_of_ascii ","%char) with 44%N in E. lia.
Qed.

Lemma digits_aux_no_comma f n acc :
  has_char ","%char (digits_aux f n acc) = has_char ","%char acc.
Proof.
  revert n acc. induction f as [|f IH]; intros n acc; simpl; [reflexivity|].
  assert (Hd : Ascii.eqb (digit_char (N.modulo n 10)) ","%char = false)
    by (apply digit_char_not_comma, N.mod_lt; lia).
  destruct (N.ltb n 10); [simpl; rewrite Hd; reflexivity|].
  rewrite IH. simpl. rewrite Hd. reflexivity.
Qed.

Lemma str_N_no_comma n : has_char ","%char (str_N n) = false.
Proof. unfold str_N. rewrite digits_aux_no_comma. reflexivity. Qed.

Lemma frac_digits_no_comma k r :
  (r < N.pow 10 (N.of_nat k))%N -> has_char ","%char (frac_digits k r) = false.
Proof.
  revert r. induction k as [|k IH]; intros r Hr; simpl; [reflexivity|].
  set (p := N.pow 10 (N.of_nat k)).
  assert (Hp : p <> 0%N) by (unfold p; apply N.pow_nonzero; lia).
  assert (Hd : Ascii.eqb (digit_char (N.div r p)) ","%char = false).
  { apply digit_char_not_comma, N.Div0.div_lt_upper_bound.
    rewrite Nat2N.inj_succ, N.pow_succ_r' in Hr. unfold p. lia. }
  assert (Hrest : has_char ","%char (frac_digits k (N.modulo r p)) = false)
    by (apply IH, N.mod_lt; exact Hp).
  destruct (frac_digits k (N.modulo r p)) eqn:E.
  - destruct (N.eqb (N.div r p) 0); simpl; rewrite ?Hd; reflexivity.
  - simpl in *. rewrite Hd. simpl. exact Hrest.
Qed.

Lemma str_number_no_comma v : is_number v -> has_char ","%char (py_str v) = false.
Proof.
  destruct v; simpl; try contradiction; intros _.
  - unfold str_Z. destruct (Z.ltb z 0); simpl; apply str_N_no_comma.
  - unfold str_float. rewrite !has_char_app, str_N_no_comma.
    assert (Hf : has_char ","%char (frac_digits k (N.modulo (Z.to_N (Z.abs m))
                                                     (N.pow 10 (N.of_nat k)))) = false)
      by (apply frac_digits_no_comma, N.mod_lt, N.pow_nonzero; lia).
    destruct (Z.ltb m 0); simpl;
      destruct (frac_digits k _); simpl in *; rewrite ?Hf; reflexivity.
Qed.

Lemma py_split_nonempty c s : py_split c s <> [].
Proof.
  destruct s as [|x s]; simpl; [discriminate|].
  destruct (Ascii.eqb x c); [discriminate|]. destruct (py_split c s); discriminate.
Qed.

Lemma py_split_app c p s :
  has_char c p = false ->
  py_split c (p ++ s) = match py_split c s with
                        | q :: qs => (p ++ q) :: qs
                        | [] => [p]
                        end.
Proof.
  induction p as [|x p IH]; simpl; intros H.
  - destruct (py_split c s) eqn:E; [exfalso; eapply py_split_nonempty; eauto|reflexivity].
  - apply orb_false_iff in H as [Hx Hp]. rewrite Hx, IH by exact Hp.
    destruct (py_split c s) eqn:E; [exfalso; eapply py_split_nonempty; eauto|reflexivity].
Qed.

Lemma py_split_sep c rest : py_split c (String c rest) = EmptyString :: py_split c rest.
Proof. simpl. rewrite Ascii.eqb_refl. reflexivity. Qed.

Lemma py_split_concat c ps :
  ps <> [] -> Forall (fun p => has_char c p = false) ps ->
  py_split c (String.concat (String c EmptyString) ps) = ps.
Proof.
  induction ps as [|p ps IH]; intros Hne Hall; [congruence|].
  inversion Hall as [|? ? Hp Hps]; subst.
  destruct ps as [|p' ps'].
  - simpl. rewrite <- (str_app_empty_r p) at 1. rewrite py_split_app by exact Hp.
    simpl. rewrite str_app_empty_r. reflexivity.
  - change (String.concat (String c EmptyString) (p :: p' :: ps'))
      with (p ++ String c (String.concat (String c EmptyString) (p' :: ps'))).
    rewrite py_split_app by exact Hp. rewrite py_split_sep, IH by (discriminate || exact Hps).
    rewrite str_app_empty_r. reflexivity.
Qed.

Lemma nnw_text_concat xs : nnw_text true xs = String.concat "," (map py_str xs).
Proof.
  assert (Hf : forall ys, nnw_text false ys =
            match ys with [] => EmptyString | _ => "," ++ String.concat "," (map py_str ys) end).
  { induction ys as [|y ys IH]; [reflexivity|].
    simpl nnw_text. rewrite IH. destruct ys; simpl; rewrite ?str_app_empty_r; reflexivity. }
  destruct xs as [|x xs]; [reflexivity|]. simpl nnw_text. rewrite Hf.
  destruct xs; simpl; rewrite ?str_app_empty_r; reflexivity.
Qed.

(** C6 (amended): [writeToNNW] writes the [str] texts of the vector's
    elements joined by commas, with nothing after the last one
    ([[0.1, -2.0, 3]] gives ["0.1,-2.0,3"]); for a non-empty vector of
    numbers, splitting that text on commas gives back exactly one piece per
    element, its [str] text, so casting the pieces back yields the vector
    as far as the cast inverts [str]. *)
Theorem writeToNNW_roundtrip (np : list Py) (fileName : string) (s : St) :
  np <> [] -> Forall is_number np ->
  writeToNNW (PList np) fileName s =
    inr (tt, mkSt (draw s) (rng s)
               ((fileName, FText (String.concat "," (map py_str np))) :: files s)
               (out s) (produced s) (gens s) (batches s))
  /\ py_split ","%char (String.concat "," (map py_str np)) = map py_str np
  /\ (forall (cast : string -> option Py) (same : Py -> Py -> Prop),
        (forall x, In x np -> exists y, cast (py_str x) = Some y /\ same x y) ->
        Forall2 (fun piece x => exists y, cast piece = Some y /\ same x y)
                (py_split ","%char (String.concat "," (map py_str np))) np)
  /\ String.concat "," (map py_str [PFloat 1 1; PFloat (-20) 1; PInt 3]) = "0.1,-2.0,3".
Proof.
  intros Hne Hnum.
  assert (Hsplit : py_split ","%char (String.concat "," (map py_str np)) = map py_str np).
  { apply py_split_concat.
    - destruct np; simpl; congruence.
    - rewrite Forall_map. eapply Forall_impl; [|exact Hnum]. apply str_number_no_comma. }
  split; [|split; [exact Hsplit|split; [|reflexivity]]].
  - unfold writeToNNW, write_file, bind, lift, modify. cbn -[nnw_text].
    rewrite nnw_text_concat. reflexivity.
  - intros cast same Hc. rewrite Hsplit.
    induction np as [|x np IH]; [constructor|]. simpl. constructor.
    + apply Hc. left; reflexivity.
    + inversion Hnum; subst. destruct np as [|y np'].
      * constructor.
      * apply IH; [discriminate|assumption| |].
        -- apply py_split_concat; [discriminate|].
           rewrite Forall_map. eapply Forall_impl; [|eassumption]. apply str_number_no_comma.
        -- intros z Hz. apply Hc. right; exact Hz.
Qed.

Lemma writeToNNW_roundtrip_witness :
  [PFloat 1 1; PFloat (-20) 1; PInt 3] <> [] /\
  Forall is_number [PFloat 1 1; PFloat (-20) 1; PInt 3] /\
  py_split ","%char (String.concat "," (map py_str [PFloat 1 1; PFloat (-20) 1; PInt 3]))
    = ["0.1"; "-2.0"; "3"].
Proof.
  assert (Hne : [PFloat 1 1; PFloat (-20) 1; PInt 3] <> []) by discriminate.
  assert (Hn : Forall is_number [PFloat 1 1; PFloat (-20) 1; PInt 3])
    by (repeat constructor).
  split; [exact Hne|split; [exact Hn|]].
  destruct (writeToNNW_roundtrip [PFloat 1 1; PFloat (-20) 1; PInt 3] "w.nnw" ex_st0 Hne Hn)
    as (_ & Hs & _). exact Hs.
Defined.

(** C6 fails for the empty vector, which a neural component with no
    hidden units and no outputs gets as its template: the file is empty,
    and [""] splits into one empty piece, not into no piece. *)
Lemma writeToNNW_empty_vector :
  createEmptyComponent "c" (PDict [("numberOfStates", PInt 1); ("numberOfHidden", PInt 0);
                                   ("numberOfOutputs", PInt 0)]) 0 ex_st0 =
    inr (PDict [("params", PDict [("neuralParams", PList []); ("numActions", PInt 0);
                                  ("numStates", PInt 1); ("numHidden", PInt 0)]);
                ("generationID", PInt 0)], ex_st0) /\
  writeToNNW (PList []) "w.nnw" ex_st0 =
    inr (tt, mkSt (draw ex_st0) 0 [("w.nnw", FText "")] [] [] [] []) /\
  py_split ","%char (nnw_text true []) = [""] /\
  (forall (cast : string -> option Py) (same : Py -> Py -> Prop),
     ~ Forall2 (fun piece x => exists y, cast piece = Some y /\ same x y)
               (py_split ","%char (nnw_text true [])) []).
Proof.
  split; [reflexivity|split; [reflexivity|split; [reflexivity|]]].
  intros cast same H. inversion H.
Qed.

Lemma createEmptyComponent_template_witness :
  createEmptyComponent "brain" (PDict [("numberOfStates", PInt 2); ("numberOfHidden", PInt 2);
                                       ("numberOfOutputs", PInt 1)]) 0 ex_st0 =
    inr (PDict [("params", PDict [("neuralParams", PList (repeat PNone 9));
                                  ("numActions", PInt 1); ("numStates", PInt 2);
                                  ("numHidden", PInt 2)]);
                ("generationID", PInt 0)], ex_st0) /\
  createEmptyComponent "leg" (PDict [("numberOfStates", PInt 0); ("numberOfInstances", PInt 2);
                                     ("numberOfOutputs", PInt 2)]) 0 ex_st0 =
    inr (PDict [("params", PList [PList [PNone; PNone]; PList [PNone; PNone]]);
                ("generationID", PInt 0)], ex_st0).
Proof.
  split.
  - destruct (createEmptyComponent_template "brain"
                (PDict [("numberOfStates", PInt 2); ("numberOfHidden", PInt 2);
                        ("numberOfOutputs", PInt 1)]) 0 ex_st0 2 1
                eq_refl eq_refl ltac:(lia)) as [_ Hnn].
    destruct (Hnn ltac:(lia) 2 eq_refl ltac:(lia) ltac:(lia)) as [H _]. exact H.
  - destruct (createEmptyComponent_template "leg"
                (PDict [("numberOfStates", PInt 0); ("numberOfInstances", PInt 2);
                        ("numberOfOutputs", PInt 2)]) 0 ex_st0 0 2
                eq_refl eq_refl ltac:(lia)) as [Hz _].
    destruct (Hz eq_refl 2 eq_refl ltac:(lia)) as [H _]. exact H.
Defined.

(** ** C2 and C10: assembling a generation *)

Lemma choice_in l s : l <> [] -> exists x s', choice l s = inr (x, s') /\ In x l.
Proof.
  intros Hne. destruct l as [|y l]; [congruence|].
  eexists; eexists; split; [reflexivity|].
  apply nth_In. apply Nat.mod_upper_bound. simpl. discriminate.
Qed.

Lemma attach_components_frame pops d s d' s' k :
  attach_components (PDict d) pops s = inr (PDict d', s') -> ~ In k (map fst pops) ->
  dget d' k = dget d k.
Proof.
  revert d s. induction pops as [|[c pop] rest IH]; intros d s Hrun Hk.
  - simpl in Hrun. injection Hrun as <- <-. reflexivity.
  - simpl in Hrun. apply bind_inr in Hrun as (y & s1 & _ & Hrun).
    apply bind_inr in Hrun as (o & s2 & Hset & Hrun).
    apply lift_inr in Hset as [Hset ->]. simpl in Hset. injection Hset as <-.
    simpl in Hk. rewrite (IH _ _ Hrun) by tauto.
    apply dget_dset_neq. intros ->. tauto.
Qed.

Lemma attach_components_spec pops d s :
  Forall (fun p => snd p <> []) pops -> NoDup (map fst pops) ->
  exists d' s', attach_components (PDict d) pops s = inr (PDict d', s') /\
    (forall c pop, In (c, pop) pops -> exists x, dget d' c = Some x /\ In x pop) /\
    (forall k, In k (map fst d') <-> In k (map fst d) \/ In k (map fst pops)) /\
    (NoDup (map fst d) -> NoDup (map fst d')).
Proof.
  revert d s. induction pops as [|[c pop] rest IH]; intros d s Hne Hnd.
  - exists d, s. simpl. split; [reflexivity|]. split; [intros ? ? []|].
    split; [intros k; tauto|auto].
  - inversion Hne as [|? ? Hpop Hrest]; subst. simpl in Hpop.
    inversion Hnd as [|? ? Hc Hnd']; subst.
    destruct (choice_in pop s Hpop) as (x & s1 & Hx & Hin).
    destruct (IH (dset d c x) s1 Hrest Hnd') as (d' & s' & Hrun & Hget & Hkeys & Hnodup).
    assert (Hkeep : forall k, ~ In k (map fst rest) ->
               dget d' k = dget (dset d c x) k)
      by (intros k Hk; eapply attach_components_frame; eauto).
    exists d', s'. split; [|split; [|split]].
    + simpl. unfold bind at 1. rewrite Hx. exact Hrun.
    + intros c0 pop0 [Heq|Hin0].
      * injection Heq as <- <-. exists x. split; [|exact Hin].
        rewrite Hkeep by exact Hc. apply dget_dset_eq.
      * apply Hget; exact Hin0.
    + intros k. rewrite Hkeys, keys_dset. simpl. intuition congruence.
    + intros H. apply Hnodup, nodup_dset, H.
Qed.

Lemma forM_all {A B} (f : A -> M B) (P : B -> Prop) l s :
  (forall x s, In x l -> exists y s', f x s = inr (y, s') /\ P y) ->
  exists ys s', forM l f s = inr (ys, s') /\ Forall P ys /\ List.length ys = List.length l.
Proof.
  revert s. induction l as [|x l IH]; intros s Hf.
  - exists [], s. simpl. auto.
  - destruct (Hf x s (or_introl eq_refl)) as (y & s1 & Hy & Py).
    destruct (IH s1 (fun x' s' H => Hf x' s' (or_intror H))) as (ys & s' & Hys & Pys & Hlen).
    exists (y :: ys), s'. simpl. unfold bind at 1. rewrite Hy.
    unfold bind at 1. rewrite Hys. simpl. auto.
Qed.

Lemma fold_addMember ms g acc : fold_left addMember ms (mkGen g acc) = mkGen g (acc ++ ms).
Proof.
  revert acc. induction ms as [|m ms IH]; intros acc.
  - simpl. rewrite app_nil_r. reflexivity.
  - change (fold_left addMember (m :: ms) (mkGen g acc))
      with (fold_left addMember ms (mkGen g (acc ++ [m]))).
    rewrite IH, <- app_assoc. reflexivity.
Qed.

Lemma createNewGeneration_spec cfg tp n pops g s :
  getitem cfg "TrialProperties" = inr tp -> getitem tp "generationSize" = inr (PInt n) ->
  0 <= n -> Forall (fun p => snd p <> []) pops -> NoDup (map fst pops) ->
  exists gen s', createNewGeneration cfg pops g s = inr (gen, s') /\ ID gen = g /\
    Z.of_nat (List.length (gmembers gen)) = n /\ Forall (member_ok pops) (gmembers gen).
Proof.
  intros Htp Hgs Hn Hne Hnd.
  destruct (forM_all (fun id => let m := newMember (Z.of_nat id) g in
                      comps <- attach_components (components m) pops ;;
                      ret (mkMember comps)) (member_ok pops) (seq 0 (Z.to_nat n)) s)
    as (ms & s' & Hms & Hok & Hlen).
  { intros id s0 _.
    destruct (attach_components_spec pops
                [("memberID", PInt (Z.of_nat id)); ("generationID", PInt g)] s0 Hne Hnd)
      as (d' & s1 & Hrun & Hget & Hkeys & Hnodup).
    exists (mkMember (PDict d')), s1. split.
    - simpl. unfold bind. rewrite Hrun. reflexivity.
    - exists d'. split; [reflexivity|]. split; [|split; [exact Hget|]].
      + apply Hnodup. simpl. constructor; [simpl; intros [H|[]]; discriminate|].
        constructor; [simpl; tauto|constructor].
      + intros k. rewrite Hkeys. simpl. tauto. }
  exists (mkGen g ms), s'. unfold createNewGeneration, geti.
  erewrite bind_step by (unfold lift; rewrite Htp; reflexivity).
  erewrite bind_step by (unfold lift; rewrite Hgs; reflexivity).
  erewrite bind_step by reflexivity.
  erewrite bind_step by exact Hms.
  unfold ret. rewrite fold_addMember. simpl. rewrite length_seq in Hlen.
  repeat split; auto. rewrite Hlen. lia.
Qed.

(** C2: for a configured [generationSize] [n] and populations that are
    all non-empty, [createNewGeneration] returns a generation with the
    given ID and exactly [n] members, each of whose component dictionary
    holds exactly one candidate, drawn from its population, under every
    component name of the mapping (its keys are distinct: the member's
    ID keys and the component names, nothing else). *)
Theorem createNewGeneration_members (cfg tp : Py) (n : Z) (pops : list (string * list Py))
    (generationID : Z) (s : St) :
  getitem cfg "TrialProperties" = inr tp -> getitem tp "generationSize" = inr (PInt n) ->
  0 <= n -> Forall (fun p => snd p <> []) pops -> NoDup (map fst pops) ->
  exists gen s', createNewGeneration cfg pops generationID s = inr (gen, s') /\
    ID gen = generationID /\ Z.of_nat (List.length (gmembers gen)) = n /\
    Forall (member_ok pops) (gmembers gen).
Proof. apply createNewGeneration_spec. Qed.

Lemma createNewGeneration_members_witness :
  exists gen s',
    createNewGeneration (ex_config 2 4 (PStr "flat"))
      [("leg", [PInt 0; PInt 1]); ("brain", [PInt 7])] 0 ex_st0 = inr (gen, s') /\
    ID gen = 0 /\ Z.of_nat (List.length (gmembers gen)) = 4 /\
    Forall (member_ok [("leg", [PInt 0; PInt 1]); ("brain", [PInt 7])]) (gmembers gen).
Proof.
  apply (createNewGeneration_members (ex_config 2 4 (PStr "flat")) _ 4
           [("leg", [PInt 0; PInt 1]); ("brain", [PInt 7])] 0 ex_st0 eq_refl eq_refl).
  - lia.
  - repeat constructor; discriminate.
  - repeat constructor; simpl; intuition discriminate.
Defined.

(** C10: [random.choice] returns an element of a non-empty population and
    fails only on an empty one, so [createNewGeneration] always returns a
    generation when every population is non-empty (and [generationSize]
    is a configured non-negative int), while with an empty population it
    raises [IndexError] instead. *)
Theorem createNewGeneration_needs_nonempty :
  (forall l s, l <> [] -> exists x s', choice l s = inr (x, s') /\ In x l) /\
  (forall l s e, choice l s = inl e -> l = []) /\
  (forall cfg tp n pops g s,
     getitem cfg "TrialProperties" = inr tp -> getitem tp "generationSize" = inr (PInt n) ->
     0 <= n -> Forall (fun p => snd p <> []) pops -> NoDup (map fst pops) ->
     exists gen s', createNewGeneration cfg pops g s = inr (gen, s')) /\
  createNewGeneration (ex_config 2 4 (PStr "flat")) [("leg", [])] 0 ex_st0 = inl IndexError.
Proof.
  split; [exact choice_in|]. split; [|split; [|reflexivity]].
  - intros l s e H. destruct l; [reflexivity|discriminate].
  - intros cfg tp n pops g s H1 H2 H3 H4 H5.
    destruct (createNewGeneration_spec cfg tp n pops g s H1 H2 H3 H4 H5)
      as (gen & s' & H & _). eauto.
Qed.

(** ** C8: importing the seed generation *)

Lemma forM_loads (fsys : FS) (d : string) files js s :
  Forall2 (fun file j => json_load fsys (abspath fsys d ++ "/" ++ file) = inr j) files js ->
  forM files (fun file =>
    let absFilePath := abspath fsys d ++ "/" ++ file in
    seedInput <- lift (json_load fsys absFilePath) ;;
    ret (mkMember seedInput)) s = inr (map mkMember js, s).
Proof.
  induction 1 as [|file j files js Hj Hrest IH]; [reflexivity|].
  assert (Hf : bind (lift (json_load fsys (abspath fsys d ++ "/" ++ file)))
                    (fun seedInput => ret (mkMember seedInput)) s = inr (mkMember j, s))
    by (unfold bind, lift; rewrite Hj; reflexivity).
  simpl. erewrite bind_step by exact Hf.
  erewrite bind_step by exact IH. reflexivity.
Qed.

(** C8: when the configured seed directory is not a directory,
    [importSeedGeneration] prints the warning and returns the empty
    generation with ID -1, nothing else changed; when it is a directory
    whose entries all load as JSON, it returns the generation with ID -1
    whose members are those records, in listing order. *)
Theorem importSeedGeneration_spec (self : Self) (pi : Py) (d : string) (s : St) :
  getitem (config self) "PathInfo" = inr pi -> getitem pi "seedDirectory" = inr (PStr d) ->
  (isdir (fs self) d = false ->
     importSeedGeneration self s =
       inr (mkGen (-1) [], mkSt (draw s) (rng s) (files s) (out s ++ [SEED_WARNING])
                                (produced s) (gens s) (batches s))) /\
  (isdir (fs self) d = true ->
     forall js, Forall2 (fun file j => json_load (fs self) (abspath (fs self) d ++ "/" ++ file)
                                       = inr j) (listdir (fs self) d) js ->
     importSeedGeneration self s = inr (mkGen (-1) (map mkMember js), s)).
Proof.
  intros Hpi Hsd.
  unfold importSeedGeneration, geti.
  erewrite bind_step by (unfold lift; rewrite Hpi; reflexivity).
  erewrite bind_step by (unfold lift; rewrite Hsd; reflexivity).
  erewrite bind_step by reflexivity.
  split.
  - intros Hd. rewrite Hd. reflexivity.
  - intros Hd js Hjs. rewrite Hd.
    erewrite bind_step by (apply forM_loads; exact Hjs).
    unfold ret. rewrite fold_addMember. reflexivity.
Qed.

Lemma importSeedGeneration_spec_witness :
  importSeedGeneration (ex_self 2 4 (PStr "flat") ex_fs_noseed) ex_st0 =
    inr (mkGen (-1) [], mkSt (draw ex_st0) 0 [] [SEED_WARNING] [] [] []) /\
  importSeedGeneration (ex_self 2 4 (PStr "flat") ex_fs_seed) ex_st0 =
    inr (mkGen (-1) [mkMember ex_seed_member], ex_st0).
Proof.
  split.
  - exact (proj1 (importSeedGeneration_spec (ex_self 2 4 (PStr "flat") ex_fs_noseed) _ "seeds"
                    ex_st0 eq_refl eq_refl) eq_refl).
  - apply (proj2 (importSeedGeneration_spec (ex_self 2 4 (PStr "flat") ex_fs_seed) _ "seeds"
                    ex_st0 eq_refl eq_refl) eq_refl [ex_seed_member]).
    simpl. constructor; [reflexivity|constructor].
Defined.

(** ** C9: the terrain loop *)

Lemma bind_ext {A B} (m m' : M A) (f f' : A -> M B) s :
  (forall s0, m s0 = m' s0) -> (forall a s0, f a s0 = f' a s0) -> bind m f s = bind m' f' s.
Proof. intros Hm Hf. unfold bind. rewrite Hm. destruct (m' s) as [|[a s1]]; auto. Qed.

Lemma member_jobs_terrains self t ms jl s :
  member_jobs (with_terrains self t) ms jl s = member_jobs self ms jl s.
Proof.
  destruct self as [c d n t0 f]. revert jl s.
  induction ms as [|m ms IH]; intros jl s; [reflexivity|].
  simpl member_jobs. repeat (apply bind_ext; intros); try reflexivity. apply IH.
Qed.

Lemma trial_loop_terrains self t dl n prev jl s :
  trial_loop (with_terrains self t) (generationGenerator (with_terrains self t) dl) n prev jl s
  = trial_loop self (generationGenerator self dl) n prev jl s.
Proof.
  destruct self as [c d n0 t0 f]. revert prev jl s.
  induction n as [|n IH]; intros prev jl s; [reflexivity|].
  simpl trial_loop. apply bind_ext; [reflexivity|intros].
  apply bind_ext; [reflexivity|intros].
  apply bind_ext; [apply (member_jobs_terrains (mkSelf c d n0 t0 f))|intros].
  apply bind_ext; [reflexivity|intros]. apply IH.
Qed.

Lemma member_jobs_length self tp tv ms jl s jl' s' :
  getitem (config self) "TrialProperties" = inr tp -> getitem tp "terrains" = inr tv ->
  member_jobs self ms jl s = inr (jl', s') ->
  List.length jl' = (List.length jl + List.length ms * iter_length tv)%nat.
Proof.
  intros Htp Htv. revert jl s. induction ms as [|m ms IH]; intros jl s H.
  - simpl in H. decomp. simpl. lia.
  - simpl in H. decomp.
    repeat match goal with
    | E : getitem (config self) _ = inr _ |- _ => rewrite Htp in E; injection E as <-
    | E : getitem tp _ = inr _ |- _ => rewrite Htv in E; injection E as <-
    | E : forM _ _ _ = inr _ |- _ => apply forM_inr in E
    | E : member_jobs _ _ _ _ = inr _ |- _ => apply IH in E
    end.
    match goal with E : List.length jl' = _ |- _ => rewrite E end.
    match goal with E : py_iter tv = inr _ |- _ => unfold iter_length; rewrite E end.
    rewrite length_app. simpl. lia.
Qed.

Lemma beginTrial_terrains self t dl s :
  beginTrial (with_terrains self t) dl s = beginTrial self dl s.
Proof.
  unfold beginTrial, beginTrialMaster.
  repeat (apply bind_ext; [intros; reflexivity | intros]).
  apply trial_loop_terrains.
Qed.

(** C9: the dispatcher iterates the raw [terrains] value of
    [TrialProperties]: a successful [member_jobs] over [ms] appends
    [len(ms) * len(iter(terrains))] jobs, four per member when [terrains] is
    the string "flat"; neither [member_jobs] nor the whole trial
    ([beginTrial]) reads [self.terrains]. *)
Theorem trial_jobs_follow_raw_terrains (self : Self) (tp tv : Py) (ms : list Member)
    (jl jl' : list Job) (s s' : St) :
  getitem (config self) "TrialProperties" = inr tp ->
  getitem tp "terrains" = inr tv ->
  member_jobs self ms jl s = inr (jl', s') ->
  List.length jl' = (List.length jl + List.length ms * iter_length tv)%nat /\
  (tv = PStr "flat" -> List.length jl' = (List.length jl + List.length ms * 4)%nat) /\
  (forall t, member_jobs (with_terrains self t) ms jl s = inr (jl', s')) /\
  (forall t dl s0, beginTrial (with_terrains self t) dl s0 = beginTrial self dl s0).
Proof.
  intros Htp Htv H. pose proof (member_jobs_length _ _ _ _ _ _ _ _ Htp Htv H) as L.
  split; [exact L|]. split; [intros ->; exact L|]. split.
  - intros t. rewrite member_jobs_terrains. exact H.
  - apply beginTrial_terrains.
Qed.

Lemma trial_jobs_follow_raw_terrains_witness :
  exists jl' s',
    member_jobs (ex_self 2 4 (PStr "flat") ex_fs_noseed) [newMember 0 0] [] ex_st0
      = inr (jl', s') /\ List.length jl' = 4%nat.
Proof.
  case_eq (member_jobs (ex_self 2 4 (PStr "flat") ex_fs_noseed) [newMember 0 0] [] ex_st0).
  - intros e E. vm_compute in E. discriminate E.
  - intros [jl' s'] E. exists jl', s'. split; [reflexivity|].
    destruct (trial_jobs_follow_raw_terrains (ex_self 2 4 (PStr "flat") ex_fs_noseed)
                _ (PStr "flat") _ _ _ _ _ eq_refl eq_refl E) as [_ [L _]].
    rewrite (L eq_refl). reflexivity.
Defined.

(** ** C5: the terrain of the dispatched jobs *)

Lemma forM_post {A B} (f : A -> M B) (P : B -> Prop) l s ys s' :
  (forall x s0 a s1, f x s0 = inr (a, s1) -> P a) ->
  forM l f s = inr (ys, s') -> Forall P ys.
Proof.
  intros Hf. revert s ys. induction l as [|x l IH]; intros s ys H; simpl in H; decomp.
  - constructor.
  - constructor; [eapply Hf; eassumption | eapply IH; eassumption].
Qed.

Lemma terrain_job_flat self f t s j s' :
  terrain_job self f t s = inr (j, s') -> jterrain j = flat_terrain.
Proof. unfold terrain_job. intros H. decomp. reflexivity. Qed.

Lemma member_jobs_flat self ms jl s jl' s' :
  Forall (fun j => jterrain j = flat_terrain) jl ->
  member_jobs self ms jl s = inr (jl', s') ->
  Forall (fun j => jterrain j = flat_terrain) jl'.
Proof.
  revert jl s. induction ms as [|m ms IH]; intros jl s Hjl H; simpl in H; decomp; auto.
  eapply IH; [|eassumption]. apply Forall_app. split; [exact Hjl|].
  eapply forM_post; [|eassumption]. apply terrain_job_flat.
Qed.

Lemma quiet_keeps {A} (m : M A) : quiet m -> keeps_batches m.
Proof. intros Hq s a s' H. apply (Hq _ _ _ H). Qed.

Lemma keeps_bind {A B} (m : M A) (f : A -> M B) :
  keeps_batches m -> (forall a, keeps_batches (f a)) -> keeps_batches (bind m f).
Proof.
  intros Hm Hf s b s'' H; decomp. rewrite (Hf _ _ _ _ H). apply (Hm _ _ _ Hm0).
Qed.

Lemma keeps_forM {A B} (f : A -> M B) l :
  (forall x, keeps_batches (f x)) -> keeps_batches (forM l f).
Proof.
  intros Hf. induction l as [|x l IH]; simpl.
  - apply quiet_keeps, quiet_ret.
  - apply keeps_bind; [apply Hf|intros y]. apply keeps_bind; [apply IH|intros].
    apply quiet_keeps, quiet_ret.
Qed.

Lemma keeps_record_produced n g c : keeps_batches (record_produced n g c).
Proof. intros s a s' H. unfold record_produced in H. decomp. reflexivity. Qed.

Lemma keeps_call_learner dl n d t p : keeps_batches (call_learner dl n d t p).
Proof. apply quiet_keeps, quiet_call_learner. Qed.

Lemma keeps_generationGenerator self dl prev :
  keeps_batches (generationGenerator self dl prev).
Proof.
  unfold generationGenerator, generateComponentPopulations, generateComponentPopulation.
  repeat first
    [ apply keeps_record_produced
    | apply keeps_call_learner
    | apply keeps_bind; intros
    | apply keeps_forM; intros
    | apply quiet_keeps; solve [quiet_tac] ].
Qed.

Lemma trial_loop_batches self genFn n prev jl s g s' :
  (forall p, keeps_batches (genFn p)) ->
  Forall (fun j => jterrain j = flat_terrain) jl ->
  trial_loop self genFn n prev jl s = inr (g, s') ->
  exists new, batches s' = (batches s ++ new)%list /\
    Forall (Forall (fun j => jterrain j = flat_terrain)) new.
Proof.
  intros Hgen. revert prev jl s. induction n as [|n IH]; intros prev jl s Hjl H;
    simpl in H; unfold record_gen, submit in H; decomp.
  - exists []. rewrite app_nil_r. auto.
  - pose proof (member_jobs_flat _ _ _ _ _ _ Hjl Hm1) as Hjl'.
    destruct (IH _ _ _ Hjl' H) as (new & Hb & Hnew).
    exists (a1 :: new). split; [|constructor; auto].
    rewrite Hb. simpl. rewrite (quiet_keeps _ (quiet_member_jobs _ _ _) _ _ _ Hm1).
    simpl. rewrite (Hgen _ _ _ _ Hm). rewrite <- app_assoc. reflexivity.
Qed.

(** C5: every job a successful trial submits, in every batch, carries the
    flat terrain [[0, 0, 0, 0]]] whatever [terrains] is configured to; so
    does each job the terrain loop builds. *)
Theorem dispatched_jobs_flat_terrain (self : Self) (dl : Learner) (s s' : St) (g : Generation) :
  beginTrial self dl s = inr (g, s') ->
  (exists new, batches s' = (batches s ++ new)%list /\
     Forall (Forall (fun j => jterrain j = flat_terrain)) new) /\
  (forall fileName t s0 j s1,
     terrain_job self fileName t s0 = inr (j, s1) -> jterrain j = flat_terrain).
Proof.
  intros H. split; [|apply terrain_job_flat].
  unfold beginTrial, beginTrialMaster in H. decomp.
  destruct (trial_loop_batches _ _ _ _ _ _ _ _ (keeps_generationGenerator self dl)
              (Forall_nil _) H) as (new & Hb & Hnew).
  exists new. split; [|exact Hnew].
  rewrite Hb, (quiet_keeps _ (quiet_importSeedGeneration self) _ _ _ Hm3). reflexivity.
Qed.

Lemma dispatched_jobs_flat_terrain_witness :
  exists g s',
    beginTrial (ex_self 2 1 (PList [PStr "hilly"; PStr "rough"]) ex_fs_noseed)
      indexLearner ex_st0 = inr (g, s') /\
    List.length (batches s') = 2%nat /\
    Forall (Forall (fun j => jterrain j = flat_terrain)) (batches s').
Proof.
  case_eq (beginTrial (ex_self 2 1 (PList [PStr "hilly"; PStr "rough"]) ex_fs_noseed)
             indexLearner ex_st0).
  - intros e E. vm_compute in E. discriminate E.
  - intros [g s'] E. exists g, s'. split; [reflexivity|].
    split; [vm_compute in E; injection E as _ <-; reflexivity|].
    destruct (dispatched_jobs_flat_terrain _ _ _ _ _ E) as [(new & Hb & Hnew) _].
    rewrite Hb. exact Hnew.
Defined.

(** ** C4: the batches of the generation loop *)

Lemma member_jobs_extends self ms jl s jl' s' :
  member_jobs self ms jl s = inr (jl', s') -> exists d, jl' = (jl ++ d)%list.
Proof.
  revert jl s. induction ms as [|m ms IH]; intros jl s H; simpl in H; decomp.
  - exists []. rewrite app_nil_r. reflexivity.
  - destruct (IH _ _ H) as (d & ->). eexists. rewrite <- app_assoc. reflexivity.
Qed.

Lemma trial_loop_chain self genFn n prev jl s g s' :
  (forall p, keeps_batches (genFn p)) ->
  trial_loop self genFn n prev jl s = inr (g, s') ->
  exists new, batches s' = (batches s ++ new)%list /\ extends_chain jl new.
Proof.
  intros Hgen. revert prev jl s. induction n as [|n IH]; intros prev jl s H;
    simpl in H; unfold record_gen, submit in H; decomp.
  - exists []. rewrite app_nil_r. split; [reflexivity|exact I].
  - destruct (IH _ _ _ H) as (new & Hb & Hnew).
    exists (a1 :: new). split; [|split; [eapply member_jobs_extends; eassumption|exact Hnew]].
    rewrite Hb. simpl. rewrite (quiet_keeps _ (quiet_member_jobs _ _ _) _ _ _ Hm1).
    simpl. rewrite (Hgen _ _ _ _ Hm). rewrite <- app_assoc. reflexivity.
Qed.

(** C4 (the loop as written): the one [jobList] is never emptied, so every
    batch a successful trial submits starts with all the jobs of the batch
    before it, that is with the jobs of every earlier generation. *)
Theorem trial_batches_accumulate (self : Self) (dl : Learner) (s s' : St) (g : Generation) :
  beginTrial self dl s = inr (g, s') ->
  exists new, batches s' = (batches s ++ new)%list /\ extends_chain [] new.
Proof.
  intros H. unfold beginTrial, beginTrialMaster in H. decomp.
  destruct (trial_loop_chain _ _ _ _ _ _ _ _ (keeps_generationGenerator self dl) H)
    as (new & Hb & Hnew).
  exists new. split; [|exact Hnew].
  rewrite Hb, (quiet_keeps _ (quiet_importSeedGeneration self) _ _ _ Hm3). reflexivity.
Qed.

Lemma trial_batches_accumulate_witness :
  exists g s',
    beginTrial (ex_self 2 1 (PList [PStr "hilly"]) ex_fs_noseed) indexLearner ex_st0
      = inr (g, s') /\
    map (@List.length Job) (batches s') = [1; 2]%nat /\
    extends_chain [] (batches s').
Proof.
  case_eq (beginTrial (ex_self 2 1 (PList [PStr "hilly"]) ex_fs_noseed) indexLearner ex_st0).
  - intros e E. vm_compute in E. discriminate E.
  - intros [g s'] E. exists g, s'. split; [reflexivity|].
    split; [vm_compute in E; injection E as _ <-; reflexivity|].
    destruct (trial_batches_accumulate _ _ _ _ _ E) as (new & Hb & Hnew).
    rewrite Hb. exact Hnew.
Defined.

(** ** C1: the paramIDs of a trial *)

Ltac unify_inr :=
  repeat match goal with
  | E : ?x = inr ?a, F : ?x = inr ?b |- _ =>
      rewrite E in F; injection F as F; subst
  | E : inr _ = inr _ |- _ => injection E as E; subst
  end.

Lemma postprocess_paramID self name gid c s c' s' cfg P i :
  getitem (config self) name = inr cfg ->
  getitem cfg "PopulationSize" = inr (PInt P) ->
  getitem c "populationID" = inr (PInt i) ->
  postprocess self name gid c s = inr (c', s') ->
  getitem c' "paramID" = inr (PInt (P * gid + i)) /\
  getitem c' "populationID" = inr (PInt i).
Proof.
  intros Hcfg HP Hi H. unfold postprocess in H. decomp. unify_inr.
  match goal with E : py_mul _ _ = inr _ |- _ => rewrite py_mul_int in E end. unify_inr.
  match goal with E : py_add _ _ = inr _ |- _ => rewrite py_add_int in E end. unify_inr.
  match goal with
  | E1 : setitem c "paramID" _ = inr ?c1, E2 : setitem ?c1 "scores" _ = inr ?c2 |- _ =>
      assert (Hc2 : getitem c2 "paramID" = inr (PInt (P * gid + i)) /\
                    getitem c2 "populationID" = inr (PInt i));
      [ rewrite (getitem_setitem_neq _ _ _ _ _ E2) by discriminate;
        rewrite (getitem_setitem_eq _ _ _ _ E1);
        rewrite (getitem_setitem_neq _ _ _ _ _ E2) by discriminate;
        rewrite (getitem_setitem_neq _ _ _ _ _ E1) by discriminate; auto | ]
  end.
  match goal with E : py_in _ _ = inr ?b |- _ => destruct b end; decomp.
  - rewrite (getitem_setitem_neq _ _ _ _ _ H) by discriminate.
    rewrite (getitem_setitem_neq _ _ _ _ _ H) by discriminate. exact Hc2.
  - exact Hc2.
Qed.

Lemma population_records self name gid cfg P l s ys s' :
  getitem (config self) name = inr cfg ->
  getitem cfg "PopulationSize" = inr (PInt P) ->
  Forall (fun c => exists i, getitem c "populationID" = inr (PInt i) /\ 0 <= i < P) l ->
  forM l (fun component =>
    c <- postprocess self name gid component ;;
    _ <- record_produced name gid c ;;
    ret c) s = inr (ys, s') ->
  produced s' = (produced s ++ map (fun c => (name, gid, c)) ys)%list /\
  map (fun c => getitem c "populationID") ys = map (fun c => getitem c "populationID") l /\
  Forall (fun c => paramID_ok (config self) (name, gid, c)) ys /\
  gens s' = gens s /\ batches s' = batches s.
Proof.
  intros Hcfg HP. revert s ys. induction l as [|c l IH]; intros s ys Hl H; simpl in H; decomp.
  - simpl. rewrite app_nil_r. auto.
  - inversion Hl as [|? ? (i & Hi & Hr) Hl']; subst.
    unfold record_produced in *. decomp.
    match goal with E : postprocess _ _ _ _ _ = inr _ |- _ =>
      destruct (postprocess_paramID _ _ _ _ _ _ _ _ _ _ Hcfg HP Hi E) as [Hp Hpi];
      destruct (quiet_postprocess _ _ _ _ _ _ _ E) as (Q1 & Q2 & Q3) end.
    match goal with E : forM _ _ _ = inr _ |- _ =>
      destruct (IH _ _ Hl' E) as (R1 & R2 & R3 & R4 & R5) end.
    simpl in R1, R4, R5. rewrite R1, R4, R5, Q1, Q2, Q3. simpl.
    split; [rewrite <- app_assoc; reflexivity|].
    split; [rewrite Hpi, Hi, R2; reflexivity|].
    split; [|auto]. constructor; [|exact R3].
    exists cfg, P, i. auto.
Qed.

Lemma NoDup_map_pair {A B C} (a : A) (b : B) (l : list C) :
  NoDup l -> NoDup (map (fun x => (a, b, x)) l).
Proof.
  induction 1 as [|x l Hx Hl IH]; simpl; constructor; auto.
  rewrite in_map_iff. intros (y & Hy & Hin). injection Hy as ->. contradiction.
Qed.

Lemma generateComponentPopulation_records self dl name comps prev gid s pop s' :
  learner_ok dl ->
  (forall k v, dget comps k = Some v -> getitem (config self) k = inr v) ->
  generateComponentPopulation self dl name comps prev gid s = inr (pop, s') ->
  exists new, produced s' = (produced s ++ new)%list /\
    Forall (paramID_ok (config self)) new /\
    Forall (fun e => fst (fst e) = name /\ snd (fst e) = gid) new /\
    NoDup (map candidate_key new) /\ gens s' = gens s /\ batches s' = batches s.
Proof.
  intros Hdl Hc H. unfold generateComponentPopulation in H. decomp.
  match goal with E : (match dget comps name with _ => _ end) = inr _ |- _ =>
    destruct (dget comps name) as [cd|] eqn:Ed; [injection E as <-|discriminate E] end.
  pose proof (Hc _ _ Ed) as Hcfg.
  match goal with E : createEmptyComponent _ _ _ _ = inr _ |- _ =>
    destruct (quiet_createEmptyComponent _ _ _ _ _ _ E) as (Q1 & Q2 & Q3) end.
  match goal with E : call_learner _ _ _ _ _ _ = inr _ |- _ =>
    unfold call_learner in E;
    destruct (dl name cd _ prev _ _) as [|[l r]] eqn:El; [discriminate E|];
    injection E as <- <- end.
  destruct (Hdl _ _ _ _ _ _ _ _ El) as (P & HP & Hl & Hnd).
  destruct (population_records _ _ _ _ _ _ _ _ _ Hcfg HP Hl H) as (R1 & R2 & R3 & R4 & R5).
  simpl in R1, R4, R5.
  exists (map (fun c => (name, gid, c)) pop). split; [rewrite R1, Q1; reflexivity|].
  split; [rewrite Forall_map; exact R3|].
  split; [rewrite Forall_forall; intros e He; apply in_map_iff in He;
          destruct He as (c & <- & _); auto|].
  split; [|rewrite R4, R5, Q2, Q3; auto].
  rewrite map_map. unfold candidate_key. simpl.
  change (fun x : Py => (name, gid, getitem x "populationID"))
    with (fun x : Py => (fun y => (name, gid, y)) (getitem x "populationID")).
  rewrite <- (map_map (fun x => getitem x "populationID") (fun y => (name, gid, y))).
  rewrite R2. apply NoDup_map_pair. exact Hnd.
Qed.

Lemma populations_records self dl comps (cs : list (string * Py)) prev gid s pops s' :
  learner_ok dl ->
  (forall k v, dget comps k = Some v -> getitem (config self) k = inr v) ->
  NoDup (map fst cs) ->
  forM cs (fun kv =>
    population <- generateComponentPopulation self dl (fst kv) comps prev gid ;;
    ret (fst kv, population)) s = inr (pops, s') ->
  exists new, produced s' = (produced s ++ new)%list /\
    Forall (paramID_ok (config self)) new /\
    Forall (fun e : string * Z * Py => In (fst (fst e)) (map fst cs) /\ snd (fst e) = gid) new /\
    NoDup (map candidate_key new) /\ gens s' = gens s /\ batches s' = batches s.
Proof.
  intros Hdl Hc. revert s pops. induction cs as [|[k v] cs IH]; intros s pops Hnd H;
    simpl in H; decomp.
  - exists []. rewrite app_nil_r. repeat split; constructor.
  - inversion Hnd as [|? ? Hk Hnd']; subst.
    match goal with E : generateComponentPopulation _ _ _ _ _ _ _ = inr _ |- _ =>
      destruct (generateComponentPopulation_records _ _ _ _ _ _ _ _ _ Hdl Hc E)
        as (n1 & A1 & A2 & A3 & A4 & A5 & A6) end.
    match goal with E : forM _ _ _ = inr _ |- _ =>
      destruct (IH _ _ Hnd' E) as (n2 & B1 & B2 & B3 & B4 & B5 & B6) end.
    exists (n1 ++ n2)%list. simpl in *.
    split; [rewrite B1, A1, app_assoc; reflexivity|].
    split; [apply Forall_app; auto|].
    split.
    { apply Forall_app. split.
      - eapply Forall_impl; [|exact A3]. simpl. intros e [-> ->]. auto.
      - eapply Forall_impl; [|exact B3]. simpl. intros e [? ->]. auto. }
    split; [|split; congruence].
    rewrite map_app. apply NoDup_app; auto.
    intros x Hx1 Hx2. apply in_map_iff in Hx1, Hx2.
    destruct Hx1 as (e1 & <- & He1). destruct Hx2 as (e2 & He & He2).
    rewrite Forall_forall in A3, B3. destruct (A3 _ He1) as [Hn1 _].
    destruct (B3 _ He2) as [Hn2 _]. unfold candidate_key in He.
    injection He as Hname _ _. apply Hk. rewrite <- Hn1, <- Hname. exact Hn2.
Qed.

Lemma dget_filter_key (q : string -> bool) d k v :
  dget (filter (fun kv => q (fst kv)) d) k = Some v -> q k = true /\ dget d k = Some v.
Proof.
  induction d as [|[k0 v0] d IH]; simpl; [discriminate|].
  destruct (q k0) eqn:Eq; simpl.
  - destruct (String.eqb k0 k) eqn:Ek.
    + intros H. injection H as <-. apply String.eqb_eq in Ek. subst. auto.
    + exact IH.
  - intros H. destruct (IH H) as [Hk Hd]. split; [exact Hk|].
    destruct (String.eqb k0 k) eqn:Ek; [|exact Hd].
    apply String.eqb_eq in Ek. subst. congruence.
Qed.

Lemma nodup_filter_keys (p : string * Py -> bool) d :
  NoDup (map fst d) -> NoDup (map fst (filter p d)).
Proof.
  induction d as [|[k v] d IH]; simpl; intros Hnd; [constructor|].
  inversion Hnd as [|? ? Hk Hnd']; subst.
  destruct (p (k, v)); simpl; [|auto].
  constructor; [|auto]. intros Hin. apply Hk.
  apply in_map_iff in Hin. destruct Hin as ([k' v'] & Hk' & Hin).
  apply filter_In in Hin. apply in_map_iff. exists (k', v'). tauto.
Qed.

Lemma getComponents_inv d s comps s' :
  getComponents (PDict d) s = inr (comps, s') ->
  comps = filter (fun kv => negb (existsb (String.eqb (fst kv)) PROTECTED_TERMS)) d /\ s' = s.
Proof. simpl. intros H. decomp. auto. Qed.

Lemma createNewGeneration_inv cfg tp n pops g s gen s' :
  getitem cfg "TrialProperties" = inr tp -> getitem tp "generationSize" = inr (PInt n) ->
  createNewGeneration cfg pops g s = inr (gen, s') ->
  ID gen = g /\ List.length (gmembers gen) = Z.to_nat n.
Proof.
  intros Htp Hgs H. unfold createNewGeneration in H. decomp. unify_inr.
  simpl in *. unify_inr.
  rewrite fold_addMember. simpl. split; [reflexivity|].
  match goal with E : forM _ _ _ = inr _ |- _ => rewrite (forM_inr _ _ _ _ _ E) end.
  apply length_seq.
Qed.

Lemma generationGenerator_records self dl d tp n prev s gen s' :
  config self = PDict d -> NoDup (map fst d) -> learner_ok dl ->
  getitem (config self) "TrialProperties" = inr tp ->
  getitem tp "generationSize" = inr (PInt n) ->
  generationGenerator self dl prev s = inr (gen, s') ->
  ID gen = getNewGenerationID prev /\ List.length (gmembers gen) = Z.to_nat n /\
  exists new, produced s' = (produced s ++ new)%list /\
    Forall (paramID_ok (config self)) new /\
    Forall (fun e : string * Z * Py => snd (fst e) = getNewGenerationID prev) new /\
    NoDup (map candidate_key new) /\ gens s' = gens s /\ batches s' = batches s.
Proof.
  intros Hd Hnd Hdl Htp Hgs H. unfold generationGenerator in H. decomp.
  rewrite Hd in Hm. destruct (getComponents_inv _ _ _ _ Hm) as [-> ->].
  match goal with E : createNewGeneration _ _ _ _ = inr _ |- _ =>
    destruct (createNewGeneration_inv _ _ _ _ _ _ _ _ Htp Hgs E) as [G1 G2];
    destruct (quiet_createNewGeneration _ _ _ _ _ _ E) as (Q1 & Q2 & Q3) end.
  split; [exact G1|]. split; [exact G2|].
  unfold generateComponentPopulations in Hm0.
  assert (Hc : forall k v,
    dget (filter (fun kv => negb (existsb (String.eqb (fst kv)) PROTECTED_TERMS)) d) k
      = Some v -> getitem (config self) k = inr v).
  { intros k v E. rewrite Hd. simpl.
    destruct (dget_filter_key (fun k => negb (existsb (String.eqb k) PROTECTED_TERMS))
                d k v E) as [_ ->].
    reflexivity. }
  destruct (populations_records _ _ _ _ _ _ _ _ _ Hdl Hc (nodup_filter_keys _ _ Hnd) Hm0)
    as (new & A1 & A2 & A3 & A4 & A5 & A6).
  exists new. rewrite Q1, Q2, Q3. split; [exact A1|]. split; [exact A2|].
  split; [eapply Forall_impl; [|exact A3]; intros e [_ ?]; auto|]. auto.
Qed.

Lemma seq_ids (g0 : Z) n :
  map (fun k => g0 + Z.of_nat k) (seq 0 (S n))
  = g0 :: map (fun k => (g0 + 1) + Z.of_nat k) (seq 0 n).
Proof.
  simpl. f_equal; [lia|]. rewrite <- seq_shift, map_map.
  apply map_ext. intros k. lia.
Qed.

Lemma trial_loop_records self dl d tp gs n prev jl s g s' :
  config self = PDict d -> NoDup (map fst d) -> learner_ok dl ->
  getitem (config self) "TrialProperties" = inr tp ->
  getitem tp "generationSize" = inr (PInt gs) -> 1 <= gs ->
  trial_loop self (generationGenerator self dl) n prev jl s = inr (g, s') ->
  gens s' = (gens s ++ map (fun k => getNewGenerationID prev + Z.of_nat k) (seq 0 n))%list /\
  exists new, produced s' = (produced s ++ new)%list /\
    Forall (paramID_ok (config self)) new /\
    Forall (fun e : string * Z * Py => getNewGenerationID prev <= snd (fst e)) new /\
    NoDup (map candidate_key new).
Proof.
  intros Hd Hnd Hdl Htp Hgs Hpos. revert prev jl s.
  induction n as [|n IH]; intros prev jl s H; simpl in H; unfold record_gen, submit in H; decomp.
  - split; [simpl; rewrite app_nil_r; reflexivity|].
    exists []. rewrite app_nil_r. repeat split; constructor.
  - match goal with E : generationGenerator _ _ _ _ = inr _ |- _ =>
      destruct (generationGenerator_records _ _ _ _ _ _ _ _ _ Hd Hnd Hdl Htp Hgs E)
        as (G1 & G2 & new1 & A1 & A2 & A3 & A4 & A5 & A6) end.
    match goal with E : member_jobs _ _ _ _ = inr _ |- _ =>
      destruct (quiet_member_jobs _ _ _ _ _ _ E) as (Q1 & Q2 & Q3) end.
    assert (Ht : getNewGenerationID a = getNewGenerationID prev + 1).
    { unfold getNewGenerationID at 1, gen_truthy.
      destruct (gmembers a) eqn:Em; [simpl in G2; lia|]. rewrite G1. reflexivity. }
    destruct (IH _ _ _ H) as (B1 & new2 & B2 & B3 & B4 & B5).
    simpl in Q1, Q2, Q3. rewrite Ht in B1, B4.
    split.
    { rewrite B1, seq_ids. simpl. rewrite Q2. simpl. rewrite A5, G1, <- app_assoc. reflexivity. }
    exists (new1 ++ new2)%list.
    split; [rewrite B2, Q1, A1, app_assoc; reflexivity|].
    split; [apply Forall_app; auto|].
    split.
    { apply Forall_app. split.
      - eapply Forall_impl; [|exact A3]. intros e ->. lia.
      - eapply Forall_impl; [|exact B4]. intros e He. simpl in He. lia. }
    rewrite map_app. apply NoDup_app; auto.
    intros x Hx1 Hx2. apply in_map_iff in Hx1, Hx2.
    destruct Hx1 as (e1 & <- & He1). destruct Hx2 as (e2 & He & He2).
    rewrite Forall_forall in A3, B4. pose proof (A3 _ He1) as E1. pose proof (B4 _ He2) as E2.
    unfold candidate_key in He. injection He as _ Hg _. simpl in E2. lia.
Qed.

(** ** C3: the generation IDs of a trial *)

Lemma quiet_keeps_gens {A} (m : M A) : quiet m -> keeps_gens m.
Proof. intros Hq s a s' H. apply (Hq _ _ _ H). Qed.

Lemma keeps_gens_bind {A B} (m : M A) (f : A -> M B) :
  keeps_gens m -> (forall a, keeps_gens (f a)) -> keeps_gens (bind m f).
Proof.
  intros Hm Hf s b s'' H; decomp. rewrite (Hf _ _ _ _ H). apply (Hm _ _ _ Hm0).
Qed.

Lemma keeps_gens_forM {A B} (f : A -> M B) l :
  (forall x, keeps_gens (f x)) -> keeps_gens (forM l f).
Proof.
  intros Hf. induction l as [|x l IH]; simpl.
  - apply quiet_keeps_gens, quiet_ret.
  - apply keeps_gens_bind; [apply Hf|intros y]. apply keeps_gens_bind; [apply IH|intros].
    apply quiet_keeps_gens, quiet_ret.
Qed.

Lemma keeps_gens_record_produced n g c : keeps_gens (record_produced n g c).
Proof. intros s a s' H. unfold record_produced in H. decomp. reflexivity. Qed.

Lemma keeps_gens_generationGenerator self dl prev :
  keeps_gens (generationGenerator self dl prev).
Proof.
  unfold generationGenerator, generateComponentPopulations, generateComponentPopulation.
  repeat first
    [ apply keeps_gens_record_produced
    | apply quiet_keeps_gens, quiet_call_learner
    | apply keeps_gens_bind; intros
    | apply keeps_gens_forM; intros
    | apply quiet_keeps_gens; solve [quiet_tac] ].
Qed.

Lemma generationGenerator_gen self dl tp n prev s gen s' :
  getitem (config self) "TrialProperties" = inr tp ->
  getitem tp "generationSize" = inr (PInt n) ->
  generationGenerator self dl prev s = inr (gen, s') ->
  ID gen = getNewGenerationID prev /\ List.length (gmembers gen) = Z.to_nat n.
Proof.
  intros Htp Hgs H. unfold generationGenerator in H. decomp.
  eapply createNewGeneration_inv; eassumption.
Qed.

Lemma trial_loop_gens self dl tp gs n prev jl s g s' :
  getitem (config self) "TrialProperties" = inr tp ->
  getitem tp "generationSize" = inr (PInt gs) -> 1 <= gs ->
  trial_loop self (generationGenerator self dl) n prev jl s = inr (g, s') ->
  gens s' = (gens s ++ map (fun k => getNewGenerationID prev + Z.of_nat k) (seq 0 n))%list.
Proof.
  intros Htp Hgs Hpos. revert prev jl s.
  induction n as [|n IH]; intros prev jl s H; simpl in H; unfold record_gen, submit in H; decomp.
  - simpl. rewrite app_nil_r. reflexivity.
  - match goal with E : generationGenerator _ _ _ _ = inr _ |- _ =>
      destruct (generationGenerator_gen _ _ _ _ _ _ _ _ Htp Hgs E) as [G1 G2];
      pose proof (keeps_gens_generationGenerator _ _ _ _ _ _ E) as A5 end.
    match goal with E : member_jobs _ _ _ _ = inr _ |- _ =>
      destruct (quiet_member_jobs _ _ _ _ _ _ E) as (Q1 & Q2 & Q3) end.
    assert (Ht : getNewGenerationID a = getNewGenerationID prev + 1).
    { unfold getNewGenerationID at 1, gen_truthy.
      destruct (gmembers a) eqn:Em; [simpl in G2; lia|]. rewrite G1. reflexivity. }
    pose proof (IH _ _ _ H) as B1. rewrite Ht in B1.
    rewrite B1, seq_ids. simpl. rewrite Q2. simpl. rewrite A5, G1, <- app_assoc. reflexivity.
Qed.

Lemma importSeedGeneration_ID self s seed s' :
  importSeedGeneration self s = inr (seed, s') -> ID seed = -1.
Proof.
  unfold importSeedGeneration. intros H. decomp.
  match goal with E : (if ?b then _ else _) _ = inr _ |- _ => destruct b end; decomp.
  - rewrite fold_addMember. reflexivity.
  - reflexivity.
Qed.

(** C3 (amended): [getNewGenerationID] gives [previous.ID + 1] for a
    non-empty previous generation and -1 for an empty one; the seed
    generation has ID -1, so with [generationSize >= 1] a successful trial
    activates the generations [start, start + 1, ..., start + generationCount - 1],
    where [start] is 0 when the seed generation has members and -1 when it
    is empty. *)
Theorem generation_ids_sequence (self : Self) (dl : Learner) (tp : Py) (gc gs : Z)
    (s s' : St) (g : Generation) :
  getitem (config self) "TrialProperties" = inr tp ->
  getitem tp "generationCount" = inr (PInt gc) ->
  getitem tp "generationSize" = inr (PInt gs) -> 1 <= gs ->
  beginTrial self dl s = inr (g, s') ->
  (forall prev, gen_truthy prev = true -> getNewGenerationID prev = ID prev + 1) /\
  (forall prev, gen_truthy prev = false -> getNewGenerationID prev = -1) /\
  exists seed s1, importSeedGeneration self s = inr (seed, s1) /\ ID seed = -1 /\
    gens s' = (gens s ++ map (fun k => (if gen_truthy seed then 0 else -1) + Z.of_nat k)
                             (seq 0 (Z.to_nat gc)))%list.
Proof.
  intros Htp Hgc Hgs Hpos H.
  split; [intros prev E; unfold getNewGenerationID; rewrite E; reflexivity|].
  split; [intros prev E; unfold getNewGenerationID; rewrite E; reflexivity|].
  unfold beginTrial, beginTrialMaster in H. decomp. unify_inr. simpl in *. unify_inr.
  match goal with E : importSeedGeneration _ _ = inr (?sd, ?s1) |- _ =>
    exists sd, s1; split; [exact E|];
    pose proof (importSeedGeneration_ID _ _ _ _ E) as Hid;
    destruct (quiet_importSeedGeneration _ _ _ _ E) as (Q1 & Q2 & Q3) end.
  split; [exact Hid|].
  rewrite (trial_loop_gens _ _ _ _ _ _ _ _ _ _ Htp Hgs Hpos H), Q2.
  unfold getNewGenerationID. rewrite Hid. destruct (gen_truthy _); reflexivity.
Qed.

Lemma generation_ids_sequence_witness :
  exists g s',
    beginTrial (ex_self 3 1 (PStr "flat") ex_fs_seed) indexLearner ex_st0 = inr (g, s') /\
    gens s' = [0; 1; 2].
Proof.
  case_eq (beginTrial (ex_self 3 1 (PStr "flat") ex_fs_seed) indexLearner ex_st0).
  - intros e E. vm_compute in E. discriminate E.
  - intros [g s'] E. exists g, s'. split; [reflexivity|].
    destruct (generation_ids_sequence (ex_self 3 1 (PStr "flat") ex_fs_seed) indexLearner
                _ 3 1 _ _ _ eq_refl eq_refl eq_refl ltac:(lia) E)
      as (_ & _ & seed & s1 & Hseed & _ & Hg).
    rewrite Hg. vm_compute in Hseed. injection Hseed as <- _. reflexivity.
Defined.

(** C3, generationSize 0: with a seed generation (ID -1, one member) and
    [generationSize = 0] the first generation has ID 0 but is empty, so the
    second one is assigned -1 again, not 1. *)
Lemma generation_ids_restart_after_empty :
  exists g s',
    beginTrial (ex_self 2 0 (PStr "flat") ex_fs_seed) indexLearner ex_st0 = inr (g, s') /\
    gens s' = [0; -1].
Proof. eexists; eexists; split; [vm_compute; reflexivity|reflexivity]. Qed.

(** ** C1: unique paramIDs *)

Lemma paramID_block P g i g' i' :
  0 <= i < P -> 0 <= i' < P -> P * g + i = P * g' + i' -> g = g' /\ i = i'.
Proof.
  intros Hi Hi' E.
  assert (g = g') by (destruct (Z.lt_trichotomy g g') as [Hl|[Hl|Hl]]; [nia|exact Hl|nia]).
  subst. split; [reflexivity|lia].
Qed.

Lemma paramID_key_nodup cfg l :
  Forall (paramID_ok cfg) l -> NoDup (map candidate_key l) -> NoDup (map paramID_key l).
Proof.
  induction l as [|e l IH]; simpl; intros Hok Hnd; [constructor|].
  inversion Hok as [|? ? He Hl]; subst. inversion Hnd as [|? ? Hk Hnd']; subst.
  constructor; [|auto].
  intros Hin. apply in_map_iff in Hin. destruct Hin as (e' & Hkey & Hin). apply Hk.
  rewrite Forall_forall in Hl. pose proof (Hl _ Hin) as He'.
  destruct e as [[n g] c], e' as [[n' g'] c']. unfold paramID_key in Hkey. simpl in Hkey.
  injection Hkey as -> Hp.
  destruct He as (cfg1 & P & i & C1 & P1 & I1 & N1 & Q1).
  destruct He' as (cfg2 & P' & i' & C2 & P2 & I2 & N2 & Q2).
  rewrite C1 in C2. injection C2 as <-. rewrite P1 in P2. injection P2 as <-.
  rewrite Q1, Q2 in Hp. injection Hp as Hp.
  destruct (paramID_block P g' i' g i I2 I1 Hp) as [-> ->].
  apply in_map_iff. exists (n, g, c'). split; [|exact Hin].
  unfold candidate_key. simpl. rewrite N1, N2. reflexivity.
Qed.

(** *** The record of produced candidates *)

Lemma records_keep {A} (P : string * Z * Py -> Prop) (m : M A) :
  (forall s a s', m s = inr (a, s') -> produced s' = produced s) -> records P m.
Proof.
  intros Hk s a s' H. exists []. rewrite (Hk _ _ _ H), app_nil_r. split; [reflexivity|constructor].
Qed.

Lemma records_quiet {A} P (m : M A) : quiet m -> records P m.
Proof. intros Hq. apply records_keep. intros s a s' H. apply (Hq _ _ _ H). Qed.

Lemma records_bind_dep {A B} P (Q : A -> Prop) (m : M A) (f : A -> M B) :
  (forall s a s', m s = inr (a, s') -> Q a) ->
  records P m -> (forall a, Q a -> records P (f a)) -> records P (bind m f).
Proof.
  intros HQ Hm Hf s b s'' H. unfold bind in H.
  destruct (m s) as [e|[a s1]] eqn:Em; [discriminate H|].
  destruct (Hm _ _ _ Em) as (n1 & E1 & F1).
  destruct (Hf a (HQ _ _ _ Em) _ _ _ H) as (n2 & E2 & F2).
  exists (n1 ++ n2)%list. rewrite E2, E1, app_assoc. split; [reflexivity|].
  apply Forall_app. auto.
Qed.

Lemma records_bind {A B} P (m : M A) (f : A -> M B) :
  records P m -> (forall a, records P (f a)) -> records P (bind m f).
Proof.
  intros Hm Hf. apply (records_bind_dep P (fun _ => True)); auto.
Qed.

Lemma records_forM {A B} P (f : A -> M B) l :
  (forall x, records P (f x)) -> records P (forM l f).
Proof.
  intros Hf. induction l as [|x l IH]; simpl.
  - apply records_quiet, quiet_ret.
  - apply records_bind; [apply Hf|intros y].
    apply records_bind; [apply IH|intros; apply records_quiet, quiet_ret].
Qed.

Lemma postprocess_formula self name gid comp s c s' :
  postprocess self name gid comp s = inr (c, s') -> paramID_formula (config self) (name, gid, c).
Proof.
  intros H. unfold postprocess in H. decomp.
  match goal with
  | E1 : setitem comp "paramID" ?p = inr ?c1, E2 : setitem ?c1 "scores" _ = inr ?c2 |- _ =>
      assert (Hc2 : getitem c2 "paramID" = inr p /\
                    getitem c2 "populationID" = getitem comp "populationID");
      [ rewrite (getitem_setitem_neq _ _ _ _ _ E2) by discriminate;
        rewrite (getitem_setitem_eq _ _ _ _ E1);
        rewrite (getitem_setitem_neq _ _ _ _ _ E2) by discriminate;
        rewrite (getitem_setitem_neq _ _ _ _ _ E1) by discriminate; auto | ]
  end.
  assert (Hc : exists c2, getitem c "paramID" = getitem c2 "paramID" /\
                          getitem c "populationID" = getitem c2 "populationID" /\
                          getitem c2 "paramID" = getitem c2 "paramID").
  { match goal with E : py_in _ _ = inr ?b |- _ => destruct b end; decomp.
    - eexists. rewrite (getitem_setitem_neq _ _ _ _ _ H) by discriminate.
      rewrite (getitem_setitem_neq _ _ _ _ _ H) by discriminate. auto.
    - eauto. }
  clear Hc.
  match goal with E : py_in _ _ = inr ?b |- _ => destruct b end; decomp;
  match goal with
  | E1 : getitem (config self) name = inr ?cfg, E2 : getitem ?cfg "PopulationSize" = inr ?P,
    E3 : py_mul ?P (PInt gid) = inr ?a, E4 : getitem comp "populationID" = inr ?pid,
    E5 : py_add ?a ?pid = inr ?q,
    Hc2 : getitem ?c2 "paramID" = inr ?q /\ getitem ?c2 "populationID" = _ |- _ =>
      exists cfg, P, pid, a, q; destruct Hc2 as [Hp Hpi];
      split; [exact E1|]; split; [exact E2|]; split; [|split; [exact E3|split; [exact E5|]]]
  end.
  - rewrite (getitem_setitem_neq _ _ _ _ _ H) by discriminate. rewrite Hpi. assumption.
  - rewrite (getitem_setitem_neq _ _ _ _ _ H) by discriminate. exact Hp.
  - rewrite Hpi. assumption.
  - exact Hp.
Qed.

Lemma records_postprocess_body self name gid comp :
  records (paramID_formula (config self))
    (c <- postprocess self name gid comp ;; _ <- record_produced name gid c ;; ret c).
Proof.
  intros s a s' H. unfold record_produced in H. decomp.
  match goal with E : postprocess _ _ _ _ _ = inr _ |- _ =>
    pose proof (postprocess_formula _ _ _ _ _ _ _ E) as F;
    destruct (quiet_postprocess _ _ _ _ _ _ _ E) as (Q1 & _ & _) end.
  eexists. simpl. rewrite Q1. split; [reflexivity|]. constructor; [exact F|constructor].
Qed.

Lemma records_generateComponentPopulation_formula self dl name comps prev gid :
  records (paramID_formula (config self))
    (generateComponentPopulation self dl name comps prev gid).
Proof.
  unfold generateComponentPopulation.
  do 4 (apply records_bind; [apply records_quiet; solve [quiet_tac]|intros]).
  apply records_forM. intros comp. apply records_postprocess_body.
Qed.

Lemma records_generationGenerator_formula self dl prev :
  records (paramID_formula (config self)) (generationGenerator self dl prev).
Proof.
  unfold generationGenerator, generateComponentPopulations.
  apply records_bind; [apply records_quiet, quiet_getComponents|intros comps]. cbv beta zeta.
  apply records_bind; [|intros; apply records_quiet, quiet_createNewGeneration].
  apply records_forM. intros kv.
  apply records_bind; [apply records_generateComponentPopulation_formula|].
  intros. apply records_quiet, quiet_ret.
Qed.

Lemma records_generationGenerator_ok self dl prev :
  learner_ok dl -> records (paramID_ok (config self)) (generationGenerator self dl prev).
Proof.
  intros Hdl. unfold generationGenerator, generateComponentPopulations.
  apply (records_bind_dep _ (fun comps => forall k v,
           dget comps k = Some v -> getitem (config self) k = inr v));
    [|apply records_quiet, quiet_getComponents|].
  { intros s comps s' H. unfold getComponents in H.
    destruct (config self) as [| | | | | |d] eqn:Ec; try discriminate H.
    injection H as <- _. intros k v E. simpl.
    destruct (dget_filter_key (fun k => negb (existsb (String.eqb k) PROTECTED_TERMS))
                d k v E) as [_ ->].
    reflexivity. }
  intros comps Hc. cbv beta zeta.
  apply records_bind; [|intros; apply records_quiet, quiet_createNewGeneration].
  apply records_forM. intros kv.
  apply records_bind; [|intros; apply records_quiet, quiet_ret].
  intros s pop s' H.
  destruct (generateComponentPopulation_records _ _ _ _ _ _ _ _ _ Hdl Hc H)
    as (new & A1 & A2 & _). eauto.
Qed.

Lemma records_trial_loop P self genFn n prev jl :
  (forall p, records P (genFn p)) -> records P (trial_loop self genFn n prev jl).
Proof.
  intros Hg. revert prev jl. induction n as [|n IH]; intros prev jl; simpl.
  - apply records_quiet, quiet_ret.
  - apply records_bind; [apply Hg|intros a].
    apply records_bind;
      [apply records_keep; intros s u s' H; unfold record_gen in H; decomp; reflexivity|intros].
    apply records_bind; [apply records_quiet, quiet_member_jobs|intros].
    apply records_bind;
      [apply records_keep; intros s u s' H; unfold submit in H; decomp; reflexivity|intros].
    apply IH.
Qed.

Lemma records_beginTrial P self dl :
  (forall p, records P (generationGenerator self dl p)) -> records P (beginTrial self dl).
Proof.
  intros Hg. unfold beginTrial, beginTrialMaster.
  do 5 (apply records_bind; [apply records_quiet; solve [quiet_tac]|intros]).
  apply records_trial_loop. exact Hg.
Qed.

Lemma trial_loop_gens_empty self dl tp gs n prev jl s g s' :
  getitem (config self) "TrialProperties" = inr tp ->
  getitem tp "generationSize" = inr (PInt gs) -> gs <= 0 ->
  trial_loop self (generationGenerator self dl) n prev jl s = inr (g, s') ->
  gens s' = (gens s ++ firstn n (getNewGenerationID prev :: repeat (-1) n))%list.
Proof.
  intros Htp Hgs Hneg. revert prev jl s.
  induction n as [|n IH]; intros prev jl s H; simpl in H; unfold record_gen, submit in H; decomp.
  - simpl. rewrite app_nil_r. reflexivity.
  - match goal with E : generationGenerator _ _ _ _ = inr _ |- _ =>
      destruct (generationGenerator_gen _ _ _ _ _ _ _ _ Htp Hgs E) as [G1 G2];
      pose proof (keeps_gens_generationGenerator _ _ _ _ _ _ E) as A5 end.
    match goal with E : member_jobs _ _ _ _ = inr _ |- _ =>
      destruct (quiet_member_jobs _ _ _ _ _ _ E) as (Q1 & Q2 & Q3) end.
    assert (Ht : getNewGenerationID a = -1).
    { unfold getNewGenerationID, gen_truthy.
      destruct (gmembers a) eqn:Em; [reflexivity|simpl in G2; lia]. }
    pose proof (IH _ _ _ H) as B1. rewrite Ht in B1.
    rewrite B1. simpl. rewrite Q2. simpl. rewrite A5, G1, <- app_assoc. reflexivity.
Qed.

(** C1 (amended): every candidate a successful trial post-processes for
    component [c] in generation [g] gets
    [paramID = PopulationSize(c) * g + populationID], computed with Python's
    [*] and [+]. When the learner hands back, for each component, candidates
    with distinct int [populationID]s in [[0, PopulationSize(c))], the
    paramID is that of [paramID_ok], so it lies in
    [[PopulationSize(c) * g, PopulationSize(c) * g + PopulationSize(c))]; when
    moreover [generationSize] is an int [>= 1] and the configuration's keys
    are distinct, no two candidates share both their component and their
    paramID. With [generationSize <= 0] the generations are empty: the
    first is assigned 0 or -1 (after a seed generation with or without
    members) and every later one -1. *)
Theorem trial_paramIDs_unique (self : Self) (dl : Learner) (s s' : St) (g : Generation) :
  beginTrial self dl s = inr (g, s') ->
  exists new, produced s' = (produced s ++ new)%list /\
    Forall (paramID_formula (config self)) new /\
    (learner_ok dl -> Forall (paramID_ok (config self)) new) /\
    (forall d tp gs, config self = PDict d -> NoDup (map fst d) -> learner_ok dl ->
       getitem (config self) "TrialProperties" = inr tp ->
       getitem tp "generationSize" = inr (PInt gs) -> 1 <= gs ->
       NoDup (map paramID_key new)) /\
    (forall tp gs gc, getitem (config self) "TrialProperties" = inr tp ->
       getitem tp "generationSize" = inr (PInt gs) -> gs <= 0 ->
       getitem tp "generationCount" = inr (PInt gc) ->
       exists seed s1, importSeedGeneration self s = inr (seed, s1) /\
         gens s' = (gens s ++ firstn (Z.to_nat gc)
                     ((if gen_truthy seed then 0 else -1) :: repeat (-1) (Z.to_nat gc)))%list).
Proof.
  intros H.
  destruct (records_beginTrial _ _ _ (records_generationGenerator_formula self dl) _ _ _ H)
    as (new & E & F).
  exists new. split; [exact E|]. split; [exact F|]. split.
  { intros Hdl.
    destruct (records_beginTrial _ _ _ (fun p => records_generationGenerator_ok self dl p Hdl)
                _ _ _ H) as (new2 & E2 & F2).
    rewrite E in E2. apply app_inv_head in E2. subst. exact F2. }
  split.
  { intros d tp gs Hd Hnd Hdl Htp Hgs Hpos. unfold beginTrial, beginTrialMaster in H. decomp.
    match goal with E : importSeedGeneration _ _ = inr _ |- _ =>
      destruct (quiet_importSeedGeneration _ _ _ _ E) as (Q1 & Q2 & Q3) end.
    destruct (trial_loop_records _ _ _ _ _ _ _ _ _ _ _ Hd Hnd Hdl Htp Hgs Hpos H)
      as (_ & new3 & A1 & A2 & _ & A4).
    rewrite A1, Q1 in E. apply app_inv_head in E. subst.
    eapply paramID_key_nodup; eassumption. }
  { intros tp gs gc Htp Hgs Hneg Hgc. unfold beginTrial, beginTrialMaster in H.
    decomp. unify_inr. simpl in *. unify_inr.
    match goal with E : importSeedGeneration _ _ = inr (?sd, ?s1) |- _ =>
      exists sd, s1; split; [exact E|];
      pose proof (importSeedGeneration_ID _ _ _ _ E) as Hid;
      destruct (quiet_importSeedGeneration _ _ _ _ E) as (Q1 & Q2 & Q3) end.
    rewrite (trial_loop_gens_empty _ _ _ _ _ _ _ _ _ _ ltac:(eassumption) ltac:(eassumption) ltac:(eassumption) H), Q2.
    unfold getNewGenerationID. rewrite Hid. destruct (gen_truthy _); reflexivity. }
Qed.

Lemma NoDup_map_injective {A B} (f : A -> B) l :
  (forall x y, f x = f y -> x = y) -> NoDup l -> NoDup (map f l).
Proof.
  intros Hf. induction 1 as [|x l Hx Hl IH]; simpl; constructor; auto.
  rewrite in_map_iff. intros (y & Hy & Hin). apply Hf in Hy. subst. contradiction.
Qed.

Lemma indexLearner_ok : learner_ok indexLearner.
Proof.
  intros name dict templ prev dr r l r' H. unfold indexLearner in H.
  destruct (getitem dict "PopulationSize") as [e|v]; [discriminate H|].
  destruct v; try discriminate H. destruct templ; try discriminate H.
  injection H as <- _. exists z. split; [reflexivity|]. split.
  - rewrite Forall_map, Forall_forall. intros i Hi. apply in_seq in Hi.
    exists (Z.of_nat i). simpl. rewrite dget_dset_eq. split; [reflexivity|lia].
  - rewrite map_map.
    rewrite (map_ext _ (fun i => inr (PInt (Z.of_nat i))
                         : PyErr + Py)) by (intros i; simpl; rewrite dget_dset_eq; reflexivity).
    apply NoDup_map_injective; [|apply seq_NoDup].
    intros x y E. injection E as E. lia.
Qed.

Lemma trial_paramIDs_unique_witness :
  exists g s',
    beginTrial (ex_self 2 1 (PStr "flat") ex_fs_noseed) indexLearner ex_st0 = inr (g, s') /\
    List.length (produced s') = 12%nat /\
    Forall (paramID_ok (config (ex_self 2 1 (PStr "flat") ex_fs_noseed))) (produced s') /\
    NoDup (map paramID_key (produced s')).
Proof.
  case_eq (beginTrial (ex_self 2 1 (PStr "flat") ex_fs_noseed) indexLearner ex_st0).
  - intros e E. vm_compute in E. discriminate E.
  - intros [g s'] E. exists g, s'. split; [reflexivity|].
    split; [vm_compute in E; injection E as _ <-; reflexivity|].
    destruct (trial_paramIDs_unique (ex_self 2 1 (PStr "flat") ex_fs_noseed) indexLearner
                _ _ _ E)
      as (new & Hp & _ & Hok & Hu & _).
    rewrite Hp. split; [exact (Hok indexLearner_ok)|].
    exact (Hu _ _ 1 eq_refl
             ltac:(vm_compute; repeat constructor; simpl; intuition discriminate)
             indexLearner_ok eq_refl eq_refl ltac:(lia)).
Defined.

(** C1, generationSize 0: without a seed generation the generations are
    empty, so every generation is assigned ID -1 and the paramIDs of the first ("leg", -3) come back in
    the second: the first and the seventh recorded candidates are both
    "leg" candidates with paramID -3. *)
Lemma trial_paramIDs_repeat_without_members :
  exists g s',
    beginTrial (ex_self 2 0 (PStr "flat") ex_fs_noseed) indexLearner ex_st0 = inr (g, s') /\
    nth_error (map paramID_key (produced s')) 0 = Some ("leg", inr (PInt (-3))) /\
    nth_error (map paramID_key (produced s')) 6 = Some ("leg", inr (PInt (-3))) /\
    ~ NoDup (map paramID_key (produced s')).
Proof.
  case_eq (beginTrial (ex_self 2 0 (PStr "flat") ex_fs_noseed) indexLearner ex_st0).
  - intros e E. vm_compute in E. discriminate E.
  - intros [g s'] E. exists g, s'. vm_compute in E. injection E as _ <-.
    split; [reflexivity|]. split; [reflexivity|]. split; [reflexivity|].
    intros Hnd. pose proof (proj1 (NoDup_nth_error _) Hnd 0%nat 6%nat) as H06.
    assert (H : 0%nat = 6%nat) by (apply H06; [simpl; lia|reflexivity]).
    discriminate H.
Qed.

(** ** Further properties of the job masters *)

(** *** getPreviousComponentGeneration *)

Lemma forM_geti_iff c ms s l s' :
  forM ms (fun member => geti (components member) c) s = inr (l, s') <->
  s' = s /\ Forall2 (fun m x => getitem (components m) c = inr x) ms l.
Proof.
  revert l s'. induction ms as [|m ms IH]; intros l s'; simpl.
  - split.
    + intros H. injection H as <- <-. auto.
    + intros [-> Hl]. inversion Hl. reflexivity.
  - split.
    + intros H. decomp.
      match goal with E : forM _ _ _ = inr _ |- _ => apply IH in E; destruct E as [-> Hl] end.
      split; [reflexivity|]. constructor; assumption.
    + intros [-> Hl]. inversion Hl as [|? x ? xs Hx Hxs]; subst.
      assert (E : forM ms (fun member => geti (components member) c) s = inr (xs, s))
        by (apply IH; auto).
      rewrite (bind_step _ _ s x s) by (unfold geti, lift; rewrite Hx; reflexivity).
      rewrite (bind_step _ _ s xs s E). reflexivity.
Qed.

Lemma forM_geti_err c ms s m e :
  In m ms -> getitem (components m) c = inl e ->
  exists e', forM ms (fun member => geti (components member) c) s = inl e'.
Proof.
  induction ms as [|m0 ms IH]; intros Hin He; [destruct Hin|].
  simpl. unfold bind at 1, geti at 1, lift at 1.
  destruct (getitem (components m0) c) as [e0|x] eqn:E0; [eauto|].
  destruct Hin as [->|Hin]; [congruence|].
  destruct (IH Hin He) as (e' & He'). unfold bind. rewrite He'. eauto.
Qed.

Lemma getPreviousComponentGeneration_iff c gen s l s' :
  getPreviousComponentGeneration c gen s = inr (l, s') <->
  s' = s /\ Forall2 (fun m x => getitem (components m) c = inr x) (gmembers gen) l.
Proof.
  unfold getPreviousComponentGeneration.
  destruct (Nat.ltb 0 (List.length (gmembers gen))) eqn:E; [apply forM_geti_iff|].
  apply Nat.ltb_ge in E. destruct (gmembers gen) as [|m0 ms]; [|simpl in E; lia].
  split.
  - intros H. injection H as <- <-. auto.
  - intros [-> Hl]. inversion Hl. reflexivity.
Qed.

(** X1: [getPreviousComponentGeneration c gen] succeeds exactly when every
    member of [gen] has an entry [c]; it then returns those entries in
    member order ([[]] for an empty generation) and changes nothing. A
    member without [c] makes it raise. *)
Theorem getPreviousComponentGeneration_spec (c : string) (gen : Generation) (s : St) :
  (forall l s', getPreviousComponentGeneration c gen s = inr (l, s') <->
     s' = s /\ Forall2 (fun m x => getitem (components m) c = inr x) (gmembers gen) l) /\
  (forall m e, In m (gmembers gen) -> getitem (components m) c = inl e ->
     exists e', getPreviousComponentGeneration c gen s = inl e').
Proof.
  split; [intros; apply getPreviousComponentGeneration_iff|].
  intros m e Hin He. unfold getPreviousComponentGeneration.
  destruct (Nat.ltb 0 (List.length (gmembers gen))) eqn:E; [eapply forM_geti_err; eassumption|].
  apply Nat.ltb_ge in E. destruct (gmembers gen); [destruct Hin|simpl in E; lia].
Qed.

(** *** createNewGeneration *)

Lemma choice_inv l s x s' : choice l s = inr (x, s') -> In x l /\ rng s' = S (rng s) /\
  draw s' = draw s /\ files s' = files s /\ out s' = out s.
Proof.
  unfold choice. destruct l as [|y l]; [discriminate|]. intros H.
  set (k := (draw s (rng s) mod List.length (y :: l))%nat) in H.
  assert (Hk : (k < List.length (y :: l))%nat)
    by (apply Nat.mod_upper_bound; simpl; discriminate).
  clearbody k. injection H as <- <-.
  split; [exact (nth_In (y :: l) PNone Hk)|simpl; auto].
Qed.

Lemma attach_components_inv pops d s o s' :
  NoDup (map fst pops) -> attach_components (PDict d) pops s = inr (o, s') ->
  exists d', o = PDict d' /\
    (forall c pop, In (c, pop) pops -> exists x, dget d' c = Some x /\ In x pop) /\
    (forall k, ~ In k (map fst pops) -> dget d' k = dget d k).
Proof.
  revert d s. induction pops as [|[c0 pop0] rest IH]; intros d s Hnd H; simpl in H; decomp.
  - exists d. split; [reflexivity|]. split; [intros ? ? []|auto].
  - inversion Hnd as [|? ? Hc0 Hnd']; subst.
    match goal with E : choice _ _ = inr _ |- _ => destruct (choice_inv _ _ _ _ E) as [Hx _] end.
    simpl in *. unify_inr.
    destruct (IH _ _ Hnd' H) as (d' & -> & Hall & Hframe).
    exists d'. split; [reflexivity|]. split.
    + intros c pop [Heq|Hin].
      * injection Heq as <- <-. exists a. split; [|exact Hx].
        rewrite Hframe by exact Hc0. apply dget_dset_eq.
      * apply Hall. exact Hin.
    + intros k Hk. rewrite Hframe by tauto. apply dget_dset_neq. intros ->. tauto.
Qed.

Lemma attach_components_shape pops d s o s' :
  attach_components (PDict d) pops s = inr (o, s') -> exists d', o = PDict d'.
Proof.
  revert d s. induction pops as [|[c0 pop0] rest IH]; intros d s H; simpl in H; decomp.
  - eauto.
  - simpl in *. unify_inr. eapply IH. eassumption.
Qed.

Lemma attach_components_rng pops o s o' s' :
  attach_components o pops s = inr (o', s') ->
  rng s' = (rng s + List.length pops)%nat /\ draw s' = draw s /\
  files s' = files s /\ out s' = out s.
Proof.
  revert o s. induction pops as [|[c pop] rest IH]; intros o s H; simpl in H; decomp.
  - simpl. repeat split; lia.
  - match goal with E : choice _ _ = inr _ |- _ =>
      destruct (choice_inv _ _ _ _ E) as (_ & R1 & R2 & R3 & R4) end.
    destruct (IH _ _ H) as (B1 & B2 & B3 & B4). simpl.
    rewrite B1, B2, B3, B4, R1, R2, R3, R4. repeat split; lia.
Qed.

Lemma forM_post2 {A B} (f : A -> M B) (R : A -> B -> Prop) l s ys s' :
  (forall x s0 a s1, f x s0 = inr (a, s1) -> R x a) ->
  forM l f s = inr (ys, s') -> Forall2 R l ys.
Proof.
  intros Hf. revert s ys. induction l as [|x l IH]; intros s ys H; simpl in H; decomp.
  - constructor.
  - constructor; [eapply Hf; eassumption | eapply IH; eassumption].
Qed.

Lemma createNewGeneration_run cfg tp n pops g s gen s' :
  getitem cfg "TrialProperties" = inr tp -> getitem tp "generationSize" = inr (PInt n) ->
  createNewGeneration cfg pops g s = inr (gen, s') ->
  exists ms, gen = mkGen g ms /\
    forM (seq 0 (Z.to_nat n)) (fun id =>
          let m := newMember (Z.of_nat id) g in
          comps <- attach_components (components m) pops ;;
          ret (mkMember comps)) s = inr (ms, s').
Proof.
  intros Htp Hgs H. unfold createNewGeneration in H. decomp. unify_inr. simpl in *. unify_inr.
  eexists. split; [rewrite fold_addMember; reflexivity|eassumption].
Qed.

Lemma forM_rng {A B} (f : A -> M B) (k : nat) l s ys s' :
  (forall x s0 a s1, f x s0 = inr (a, s1) ->
     rng s1 = (rng s0 + k)%nat /\ draw s1 = draw s0 /\ files s1 = files s0 /\ out s1 = out s0) ->
  forM l f s = inr (ys, s') ->
  rng s' = (rng s + List.length l * k)%nat /\ draw s' = draw s /\
  files s' = files s /\ out s' = out s.
Proof.
  intros Hf. revert s ys. induction l as [|x l IH]; intros s ys H; simpl in H; decomp.
  - simpl. repeat split; lia.
  - match goal with E : f _ _ = inr _ |- _ => destruct (Hf _ _ _ _ E) as (R1 & R2 & R3 & R4) end.
    match goal with E : forM _ _ _ = inr _ |- _ => destruct (IH _ _ E) as (B1 & B2 & B3 & B4) end.
    rewrite B1, B2, B3, B4, R1, R2, R3, R4. simpl. repeat split; lia.
Qed.

Lemma member_entries_of_populations pops id g s m s' :
  NoDup (map fst pops) ->
  (comps <- attach_components (components (newMember id g)) pops ;; ret (mkMember comps)) s
    = inr (m, s') ->
  exists d', components m = PDict d' /\
    (forall c pop, In (c, pop) pops -> exists x, dget d' c = Some x /\ In x pop) /\
    (forall k, ~ In k (map fst pops) ->
       dget d' k = dget [("memberID", PInt id); ("generationID", PInt g)] k).
Proof.
  intros Hnd H. decomp.
  match goal with E : attach_components _ _ _ = inr _ |- _ =>
    destruct (attach_components_inv _ _ _ _ _ Hnd E) as (d' & -> & Hall & Hframe) end.
  exists d'. auto.
Qed.

Lemma Forall_entries_Forall2 (c : string) (pop : list Py) (ms : list Member) :
  Forall (fun m => exists x, getitem (components m) c = inr x /\ In x pop) ms ->
  exists l, Forall2 (fun m x => getitem (components m) c = inr x) ms l /\
            Forall (fun x => In x pop) l.
Proof.
  induction 1 as [|m ms (x & Hx & Hin) _ (l & Hl & Hp)].
  - exists []. auto.
  - exists (x :: l). auto.
Qed.

(** X2: Composing [createNewGeneration] with [getPreviousComponentGeneration]:
    for a component [c] drawn from population [pop] (component names
    distinct), reading [c] back from the new generation succeeds without
    changing the state and gives [generationSize] values, each one taken
    from [pop]. *)
Theorem previous_component_from_population (cfg tp : Py) (n : Z)
    (pops : list (string * list Py)) (g : Z) (s : St) (gen : Generation) (s' : St)
    (c : string) (pop : list Py) (s0 : St) :
  getitem cfg "TrialProperties" = inr tp -> getitem tp "generationSize" = inr (PInt n) ->
  NoDup (map fst pops) -> In (c, pop) pops ->
  createNewGeneration cfg pops g s = inr (gen, s') ->
  exists l, getPreviousComponentGeneration c gen s0 = inr (l, s0) /\
    List.length l = Z.to_nat n /\ Forall (fun x => In x pop) l.
Proof.
  intros Htp Hgs Hnd Hc H.
  destruct (createNewGeneration_inv _ _ _ _ _ _ _ _ Htp Hgs H) as [_ Hlen].
  destruct (createNewGeneration_run _ _ _ _ _ _ _ _ Htp Hgs H) as (ms & -> & Hms).
  assert (Hall : Forall (fun m => exists x, getitem (components m) c = inr x /\ In x pop) ms).
  { eapply forM_post; [|exact Hms].
    intros id s1 m s2 E. destruct (member_entries_of_populations _ _ _ _ _ _ Hnd E)
      as (d' & Hd & Hpop & _).
    destruct (Hpop c pop Hc) as (x & Hx & Hin). exists x. rewrite Hd. simpl. rewrite Hx. auto. }
  destruct (Forall_entries_Forall2 _ _ _ Hall) as (l & Hl & Hp).
  exists l. split; [apply getPreviousComponentGeneration_iff; auto|].
  split; [|exact Hp]. simpl in Hlen. rewrite <- Hlen. symmetry. eapply Forall2_length; eassumption.
Qed.

(** X3: With [generationSize <= 0], [createNewGeneration] returns an empty
    generation with the given ID and leaves the state as it was, whatever
    the populations, even empty ones. *)
Theorem createNewGeneration_no_members (cfg tp : Py) (n : Z)
    (pops : list (string * list Py)) (g : Z) (s : St) :
  getitem cfg "TrialProperties" = inr tp -> getitem tp "generationSize" = inr (PInt n) ->
  n <= 0 -> createNewGeneration cfg pops g s = inr (mkGen g [], s).
Proof.
  intros Htp Hgs Hn. unfold createNewGeneration, bind, geti, lift.
  rewrite Htp, Hgs. simpl. replace (Z.to_nat n) with 0%nat by lia. reflexivity.
Qed.

(** X4: [createNewGeneration] draws from the random source exactly once per
    member and component: [generationSize * (number of components)]
    draws; it writes no file and prints nothing. *)
Theorem createNewGeneration_draws (cfg tp : Py) (n : Z)
    (pops : list (string * list Py)) (g : Z) (s : St) (gen : Generation) (s' : St) :
  getitem cfg "TrialProperties" = inr tp -> getitem tp "generationSize" = inr (PInt n) ->
  createNewGeneration cfg pops g s = inr (gen, s') ->
  rng s' = (rng s + Z.to_nat n * List.length pops)%nat /\ draw s' = draw s /\
  files s' = files s /\ out s' = out s.
Proof.
  intros Htp Hgs H.
  destruct (createNewGeneration_run _ _ _ _ _ _ _ _ Htp Hgs H) as (ms & _ & Hms).
  rewrite <- (length_seq (Z.to_nat n) 0). eapply forM_rng; [|exact Hms].
  intros id s1 m s2 E. cbv beta zeta in E. decomp. eapply attach_components_rng; eassumption.
Qed.

Lemma createNewGeneration_ids cfg tp n pops g s gen s' :
  getitem cfg "TrialProperties" = inr tp -> getitem tp "generationSize" = inr (PInt n) ->
  ~ In "memberID" (map fst pops) -> ~ In "generationID" (map fst pops) ->
  createNewGeneration cfg pops g s = inr (gen, s') ->
  Forall2 (fun m i => getitem (components m) "memberID" = inr (PInt (Z.of_nat i)) /\
                      getitem (components m) "generationID" = inr (PInt g))
    (gmembers gen) (seq 0 (Z.to_nat n)).
Proof.
  intros Htp Hgs Hm Hg H.
  destruct (createNewGeneration_run _ _ _ _ _ _ _ _ Htp Hgs H) as (ms & -> & Hms).
  simpl. apply Forall2_flip. eapply forM_post2; [|exact Hms].
  intros id s1 m s2 E. cbv beta zeta in E. decomp. simpl in *.
  match goal with E : attach_components _ _ _ = inr _ |- _ =>
    destruct (attach_components_shape _ _ _ _ _ E) as (d' & ->) end.
  simpl.
  match goal with E : attach_components _ _ _ = inr _ |- _ =>
    rewrite (attach_components_frame _ _ _ _ _ _ E Hm),
            (attach_components_frame _ _ _ _ _ _ E Hg) end.
  simpl. auto.
Qed.

(** X5: The [i]-th member [createNewGeneration] builds has [memberID] [i] and
    the given [generationID], when no component is named [memberID] or
    [generationID]. *)
Theorem createNewGeneration_member_ids (cfg tp : Py) (n : Z)
    (pops : list (string * list Py)) (g : Z) (s : St) (gen : Generation) (s' : St) :
  getitem cfg "TrialProperties" = inr tp -> getitem tp "generationSize" = inr (PInt n) ->
  ~ In "memberID" (map fst pops) -> ~ In "generationID" (map fst pops) ->
  createNewGeneration cfg pops g s = inr (gen, s') ->
  Forall2 (fun m i => getitem (components m) "memberID" = inr (PInt (Z.of_nat i)) /\
                      getitem (components m) "generationID" = inr (PInt g))
    (gmembers gen) (seq 0 (Z.to_nat n)).
Proof. exact (createNewGeneration_ids cfg tp n pops g s gen s'). Qed.

Lemma previous_component_from_population_witness :
  exists gen s',
    createNewGeneration (ex_config 2 4 (PStr "flat"))
      [("leg", [PInt 0; PInt 1]); ("brain", [PInt 7])] 5 ex_st0 = inr (gen, s') /\
    exists l, getPreviousComponentGeneration "leg" gen ex_st0 = inr (l, ex_st0) /\
      List.length l = 4%nat /\ Forall (fun x => In x [PInt 0; PInt 1]) l.
Proof.
  destruct (createNewGeneration (ex_config 2 4 (PStr "flat"))
      [("leg", [PInt 0; PInt 1]); ("brain", [PInt 7])] 5 ex_st0) as [e|[gen s']] eqn:E;
    [vm_compute in E; discriminate|].
  exists gen, s'. split; [reflexivity|].
  eapply (previous_component_from_population (ex_config 2 4 (PStr "flat")) _ 4
           [("leg", [PInt 0; PInt 1]); ("brain", [PInt 7])] 5 ex_st0 _ _
           "leg" [PInt 0; PInt 1] ex_st0 eq_refl eq_refl).
  - repeat constructor; simpl; intuition discriminate.
  - simpl; auto.
  - exact E.
Defined.

Lemma createNewGeneration_no_members_witness :
  0 <= 0 /\
  createNewGeneration (ex_config 2 0 (PStr "flat")) [("leg", [])] 3 ex_st0
    = inr (mkGen 3 [], ex_st0).
Proof.
  split; [lia|].
  apply (createNewGeneration_no_members (ex_config 2 0 (PStr "flat")) _ 0 [("leg", [])] 3
           ex_st0 eq_refl eq_refl). lia.
Defined.

Lemma createNewGeneration_draws_witness :
  exists gen s',
    createNewGeneration (ex_config 2 4 (PStr "flat"))
      [("leg", [PInt 0; PInt 1]); ("brain", [PInt 7])] 5 ex_st0 = inr (gen, s') /\
    rng s' = (rng ex_st0 + 4 * 2)%nat /\ draw s' = draw ex_st0 /\
    files s' = files ex_st0 /\ out s' = out ex_st0.
Proof.
  destruct (createNewGeneration (ex_config 2 4 (PStr "flat"))
      [("leg", [PInt 0; PInt 1]); ("brain", [PInt 7])] 5 ex_st0) as [e|[gen s']] eqn:E;
    [vm_compute in E; discriminate|].
  exists gen, s'. split; [reflexivity|].
  eapply (createNewGeneration_draws (ex_config 2 4 (PStr "flat")) _ 4
           [("leg", [PInt 0; PInt 1]); ("brain", [PInt 7])] 5 ex_st0 _ _ eq_refl eq_refl).
  exact E.
Defined.

Lemma createNewGeneration_member_ids_witness :
  exists gen s',
    createNewGeneration (ex_config 2 3 (PStr "flat"))
      [("leg", [PInt 0; PInt 1]); ("brain", [PInt 7])] 5 ex_st0 = inr (gen, s') /\
    Forall2 (fun m i => getitem (components m) "memberID" = inr (PInt (Z.of_nat i)) /\
                        getitem (components m) "generationID" = inr (PInt 5))
      (gmembers gen) (seq 0 3).
Proof.
  destruct (createNewGeneration (ex_config 2 3 (PStr "flat"))
      [("leg", [PInt 0; PInt 1]); ("brain", [PInt 7])] 5 ex_st0) as [e|[gen s']] eqn:E;
    [vm_compute in E; discriminate|].
  exists gen, s'. split; [reflexivity|].
  eapply (createNewGeneration_member_ids (ex_config 2 3 (PStr "flat")) _ 3
           [("leg", [PInt 0; PInt 1]); ("brain", [PInt 7])] 5 ex_st0 _ _ eq_refl eq_refl).
  - simpl; intuition discriminate.
  - simpl; intuition discriminate.
  - exact E.
Defined.

(** *** The files a trial writes *)

Lemma writes_keep {A} (P : string * File -> Prop) (m : M A) :
  (forall s a s', m s = inr (a, s') -> files s' = files s) -> writes P m.
Proof. intros Hk s a s' H. exists []. rewrite (Hk _ _ _ H). auto. Qed.

Lemma writes_ret {A} P (x : A) : writes P (ret x).
Proof. apply writes_keep. intros s a s' H. decomp. reflexivity. Qed.

Lemma writes_lift {A} P (r : PyErr + A) : writes P (lift r).
Proof. apply writes_keep. intros s a s' H. decomp. reflexivity. Qed.

Lemma writes_geti P o k : writes P (geti o k).
Proof. apply writes_lift. Qed.

Lemma writes_bind {A B} P (m : M A) (f : A -> M B) :
  writes P m -> (forall a, writes P (f a)) -> writes P (bind m f).
Proof.
  intros Hm Hf s b s'' H. decomp.
  destruct (Hm _ _ _ Hm0) as (new1 & F1 & P1). destruct (Hf _ _ _ _ H) as (new2 & F2 & P2).
  exists (new2 ++ new1)%list. rewrite F2, F1, app_assoc. split; [reflexivity|].
  apply Forall_app. auto.
Qed.

Lemma writes_forM {A B} P (f : A -> M B) l : (forall x, writes P (f x)) -> writes P (forM l f).
Proof.
  intros Hf. induction l as [|x l IH]; simpl.
  - apply writes_ret.
  - apply writes_bind; [apply Hf|intros y]. apply writes_bind; [apply IH|intros; apply writes_ret].
Qed.

Lemma writes_write_file (P : string * File -> Prop) p c : P (p, c) -> writes P (write_file p c).
Proof. intros HP s a s' H. unfold write_file in H. decomp. exists [(p, c)]. auto. Qed.

Lemma writes_print P l : writes P (print l).
Proof. apply writes_keep. intros s a s' H. unfold print in H. decomp. reflexivity. Qed.

Lemma writes_choice P l : writes P (choice l).
Proof.
  apply writes_keep. intros s a s' H. unfold choice in H. destruct l; [discriminate|].
  injection H as _ <-. reflexivity.
Qed.

Lemma writes_call_learner P dl n d t p : writes P (call_learner dl n d t p).
Proof.
  apply writes_keep. intros s a s' H. unfold call_learner in H.
  destruct (dl n d t p (draw s) (rng s)) as [|[l r]]; [discriminate|].
  injection H as _ <-. reflexivity.
Qed.

Lemma writes_record_produced P n g c : writes P (record_produced n g c).
Proof. apply writes_keep. intros s a s' H. unfold record_produced in H. decomp. reflexivity. Qed.

Lemma writes_record_gen P g : writes P (record_gen g).
Proof. apply writes_keep. intros s a s' H. unfold record_gen in H. decomp. reflexivity. Qed.

Lemma writes_submit P jl : writes P (submit jl).
Proof. apply writes_keep. intros s a s' H. unfold submit in H. decomp. reflexivity. Qed.

Lemma writes_mono {A} (P Q : string * File -> Prop) (m : M A) :
  (forall e, P e -> Q e) -> writes P m -> writes Q m.
Proof.
  intros HPQ Hm s a s' H. destruct (Hm _ _ _ H) as (new & F & HP).
  exists new. split; [exact F|]. eapply Forall_impl; eassumption.
Qed.

Create HintDb writes_db.
#[export] Hint Resolve writes_ret writes_lift writes_geti writes_print writes_choice
  writes_call_learner writes_record_produced writes_record_gen writes_submit : writes_db.

Ltac writes_tac :=
  repeat first
    [ progress (auto with writes_db)
    | apply writes_bind; intros
    | apply writes_forM; intros
    | match goal with |- writes _ (if ?b then _ else _) => destruct b end
    | match goal with |- writes _ (match ?x with _ => _ end) => destruct x end ].

Lemma writes_attach_components P comps pops : writes P (attach_components comps pops).
Proof. revert comps. induction pops as [|[c pop] pops IH]; intros comps; simpl; writes_tac. Qed.
#[export] Hint Resolve writes_attach_components : writes_db.

Lemma writes_createNewGeneration P cfg pops g : writes P (createNewGeneration cfg pops g).
Proof. unfold createNewGeneration; writes_tac. Qed.

Lemma writes_importSeedGeneration P self : writes P (importSeedGeneration self).
Proof. unfold importSeedGeneration; writes_tac. Qed.

Lemma writes_getComponents P cfg : writes P (getComponents cfg).
Proof. unfold getComponents; writes_tac. Qed.

Lemma writes_createEmptyComponent P c nn g : writes P (createEmptyComponent c nn g).
Proof. unfold createEmptyComponent, getNonNNParams, getNNParams; writes_tac. Qed.

Lemma writes_terrain_job P self f t : writes P (terrain_job self f t).
Proof. unfold terrain_job; writes_tac. Qed.
#[export] Hint Resolve writes_createNewGeneration writes_importSeedGeneration
  writes_getComponents writes_createEmptyComponent writes_terrain_job : writes_db.

Lemma writes_writeMemberToFile self m :
  writes (trial_file (trialDirectory self)) (writeMemberToFile self m).
Proof.
  unfold writeMemberToFile. writes_tac. apply writes_write_file.
  left. do 2 eexists. split; reflexivity.
Qed.

Lemma writes_postprocess self n g c :
  writes (trial_file (trialDirectory self)) (postprocess self n g c).
Proof.
  unfold postprocess. writes_tac. apply writes_write_file.
  right. do 2 eexists. split; reflexivity.
Qed.
#[export] Hint Resolve writes_writeMemberToFile writes_postprocess : writes_db.

Lemma writes_generationGenerator self dl prev :
  writes (trial_file (trialDirectory self)) (generationGenerator self dl prev).
Proof.
  unfold generationGenerator, generateComponentPopulations, generateComponentPopulation.
  writes_tac.
Qed.

Lemma writes_member_jobs self ms jl :
  writes (trial_file (trialDirectory self)) (member_jobs self ms jl).
Proof. revert jl. induction ms as [|m ms IH]; intros jl; simpl; writes_tac. Qed.
#[export] Hint Resolve writes_generationGenerator writes_member_jobs : writes_db.

Lemma writes_trial_loop self genFn n prev jl :
  (forall p, writes (trial_file (trialDirectory self)) (genFn p)) ->
  writes (trial_file (trialDirectory self)) (trial_loop self genFn n prev jl).
Proof.
  intros Hg. revert prev jl. induction n as [|n IH]; intros prev jl; simpl; writes_tac.
Qed.

Lemma writes_beginTrial self dl :
  writes (trial_file (trialDirectory self)) (beginTrial self dl).
Proof.
  unfold beginTrial, beginTrialMaster. writes_tac.
  apply writes_trial_loop. intros p. apply writes_generationGenerator.
Qed.

(** *** postprocess *)

Lemma postprocess_inv self name gid c s c' s' :
  postprocess self name gid c s = inr (c', s') ->
  exists params, getitem c "params" = inr params /\
    getitem c' "scores" = inr (PList []) /\
    (forall k, k <> "paramID" -> k <> "scores" -> k <> "params" -> getitem c' k = getitem c k) /\
    ((py_in "numHidden" params = inr false /\ s' = s /\ getitem c' "params" = inr params) \/
     (py_in "numHidden" params = inr true /\
      exists nf np xs params',
        getitem c' "params" = inr params' /\
        getitem params' "neuralFilename" = inr (PStr nf) /\
        (forall k, k <> "neuralFilename" -> getitem params' k = getitem params k) /\
        getitem params "neuralParams" = inr np /\ py_iter np = inr xs /\
        s' = mkSt (draw s) (rng s)
               ((trialDirectory self ++ "/" ++ nf, FText (nnw_text true xs)) :: files s)
               (out s) (produced s) (gens s) (batches s))).
Proof.
  intros H. unfold postprocess in H. decomp.
  match goal with
  | E1 : setitem c "paramID" _ = inr ?c1, E2 : setitem ?c1 "scores" _ = inr ?c2,
    E3 : getitem ?c2 "params" = inr ?params |- _ =>
      assert (Hkeep : forall k, k <> "paramID" -> k <> "scores" -> getitem c2 k = getitem c k)
        by (intros k Hk1 Hk2; rewrite (getitem_setitem_neq _ _ _ _ _ E2) by congruence;
            apply (getitem_setitem_neq _ _ _ _ _ E1); congruence);
      assert (Hsc : getitem c2 "scores" = inr (PList [])) by exact (getitem_setitem_eq _ _ _ _ E2);
      exists params; split; [rewrite <- (Hkeep "params") by discriminate; exact E3|]
  end.
  match goal with E : py_in _ _ = inr ?b |- _ => destruct b end; decomp.
  - unfold writeToNNW, write_file in *. decomp.
    match goal with
    | E4 : setitem _ "params" _ = inr c', E5 : setitem _ "neuralFilename" _ = inr _ |- _ =>
        rename E4 into E4'; rename E5 into E5'
    end.
    split; [rewrite (getitem_setitem_neq _ _ _ _ _ E4') by discriminate; exact Hsc|].
    split; [intros k Hk1 Hk2 Hk3; rewrite (getitem_setitem_neq _ _ _ _ _ E4') by congruence;
            apply Hkeep; assumption|].
    right. split; [assumption|].
    do 4 eexists. split; [exact (getitem_setitem_eq _ _ _ _ E4')|].
    split; [exact (getitem_setitem_eq _ _ _ _ E5')|].
    split; [intros k Hk; apply (getitem_setitem_neq _ _ _ _ _ E5'); congruence|].
    split; [eassumption|]. split; [eassumption|]. reflexivity.
  - split; [exact Hsc|]. split; [intros k Hk1 Hk2 _; apply Hkeep; assumption|].
    left. auto.
Qed.

(** X6: [postprocess] gives a candidate [paramID = PopulationSize *
    generationID + populationID] and an empty [scores] list, and changes
    none of its keys other than [paramID], [scores] and [params]. *)
Theorem postprocess_fields (self : Self) (name : string) (gid : Z) (c : Py) (s : St)
    (c' : Py) (s' : St) (cfg : Py) (P i : Z) :
  getitem (config self) name = inr cfg -> getitem cfg "PopulationSize" = inr (PInt P) ->
  getitem c "populationID" = inr (PInt i) ->
  postprocess self name gid c s = inr (c', s') ->
  getitem c' "paramID" = inr (PInt (P * gid + i)) /\
  getitem c' "scores" = inr (PList []) /\
  (forall k, k <> "paramID" -> k <> "scores" -> k <> "params" -> getitem c' k = getitem c k).
Proof.
  intros Hcfg HP Hi H.
  destruct (postprocess_paramID _ _ _ _ _ _ _ _ _ _ Hcfg HP Hi H) as [Hid _].
  destruct (postprocess_inv _ _ _ _ _ _ _ H) as (params & _ & Hsc & Hk & _).
  auto.
Qed.

(** X7: [postprocess] writes a neural network file exactly when the
    candidate's [params] has [numHidden]. Then the file is
    [trialDirectory/nf] with the text of [params.neuralParams], [nf] is what
    the candidate's [params.neuralFilename] now holds, and nothing else of
    [params] or of the state changes. Otherwise the state and [params] are
    left as they were. *)
Theorem postprocess_neural_file (self : Self) (name : string) (gid : Z) (c : Py) (s : St)
    (c' : Py) (s' : St) (params : Py) :
  getitem c "params" = inr params ->
  postprocess self name gid c s = inr (c', s') ->
  (py_in "numHidden" params = inr false -> s' = s /\ getitem c' "params" = inr params) /\
  (py_in "numHidden" params = inr true ->
   exists nf np xs params',
     getitem c' "params" = inr params' /\
     getitem params' "neuralFilename" = inr (PStr nf) /\
     (forall k, k <> "neuralFilename" -> getitem params' k = getitem params k) /\
     getitem params "neuralParams" = inr np /\ py_iter np = inr xs /\
     s' = mkSt (draw s) (rng s)
            ((trialDirectory self ++ "/" ++ nf, FText (nnw_text true xs)) :: files s)
            (out s) (produced s) (gens s) (batches s)).
Proof.
  intros Hp H.
  destruct (postprocess_inv _ _ _ _ _ _ _ H) as (params0 & Hp0 & _ & _ & Hcase).
  rewrite Hp in Hp0. injection Hp0 as <-.
  destruct Hcase as [(Hf & Hs & Hc)|(Ht & rest)]; split; intros Hin.
  - auto.
  - congruence.
  - congruence.
  - exact rest.
Qed.

Lemma postprocess_fields_witness :
  exists c' s',
    postprocess (ex_self 2 4 (PStr "flat") ex_fs_noseed) "brain" 5 ex_brain_candidate ex_st0
      = inr (c', s') /\
    getitem c' "paramID" = inr (PInt (3 * 5 + 1)) /\
    getitem c' "scores" = inr (PList []) /\
    (forall k, k <> "paramID" -> k <> "scores" -> k <> "params" ->
       getitem c' k = getitem ex_brain_candidate k).
Proof.
  destruct (postprocess (ex_self 2 4 (PStr "flat") ex_fs_noseed) "brain" 5 ex_brain_candidate
              ex_st0) as [e|[c' s']] eqn:E; [vm_compute in E; discriminate|].
  exists c', s'. split; [reflexivity|].
  exact (postprocess_fields (ex_self 2 4 (PStr "flat") ex_fs_noseed) "brain" 5
           ex_brain_candidate ex_st0 c' s' _ 3 1 eq_refl eq_refl eq_refl E).
Defined.

Lemma postprocess_neural_file_witness :
  exists c' s',
    postprocess (ex_self 2 4 (PStr "flat") ex_fs_noseed) "brain" 5 ex_brain_candidate ex_st0
      = inr (c', s') /\
    exists nf np xs params',
      getitem c' "params" = inr params' /\
      getitem params' "neuralFilename" = inr (PStr nf) /\
      (forall k, k <> "neuralFilename" ->
         getitem params' k = getitem (PDict [("neuralParams", PList [PInt 1; PInt 2; PInt 3]);
                                             ("numHidden", PInt 2)]) k) /\
      getitem (PDict [("neuralParams", PList [PInt 1; PInt 2; PInt 3]);
                      ("numHidden", PInt 2)]) "neuralParams" = inr np /\
      py_iter np = inr xs /\
      s' = mkSt (draw ex_st0) (rng ex_st0)
             (("/res/trial" ++ "/" ++ nf, FText (nnw_text true xs)) :: files ex_st0)
             (out ex_st0) (produced ex_st0) (gens ex_st0) (batches ex_st0).
Proof.
  destruct (postprocess (ex_self 2 4 (PStr "flat") ex_fs_noseed) "brain" 5 ex_brain_candidate
              ex_st0) as [e|[c' s']] eqn:E; [vm_compute in E; discriminate|].
  exists c', s'. split; [reflexivity|].
  exact (proj2 (postprocess_neural_file (ex_self 2 4 (PStr "flat") ex_fs_noseed) "brain" 5
                  ex_brain_candidate ex_st0 c' s' _ eq_refl E) eq_refl).
Defined.

(** *** The jobs of a trial and the member files *)

Lemma writes_grow {A} (P : string * File -> Prop) (m : M A) s a s' :
  writes P m -> m s = inr (a, s') -> exists new, files s' = (new ++ files s)%list.
Proof. intros Hw H. destruct (Hw _ _ _ H) as (new & F & _). eauto. Qed.

Lemma writes_none {A} (m : M A) s a s' :
  writes (fun _ => False) m -> m s = inr (a, s') -> files s' = files s.
Proof.
  intros Hw H. destruct (Hw _ _ _ H) as (new & F & HP).
  destruct new as [|e new]; [exact F|]. inversion HP. contradiction.
Qed.

Lemma jobs_written_app td fl new jl :
  jobs_written td fl jl -> jobs_written td (new ++ fl)%list jl.
Proof.
  apply Forall_impl. intros j (v & Hv). exists v. apply in_or_app. auto.
Qed.

Lemma writeMemberToFile_file self m s f s' :
  writeMemberToFile self m s = inr (f, s') ->
  exists v, files s' = (trialDirectory self ++ "/" ++ f, FJson v) :: files s.
Proof. unfold writeMemberToFile, write_file. intros H. decomp. simpl. eauto. Qed.

Lemma terrain_job_name self f t s j s' : terrain_job self f t s = inr (j, s') -> jfilename j = f.
Proof. unfold terrain_job. intros H. decomp. reflexivity. Qed.

Lemma member_jobs_written self ms jl s jl' s' :
  jobs_written (trialDirectory self) (files s) jl ->
  member_jobs self ms jl s = inr (jl', s') ->
  jobs_written (trialDirectory self) (files s') jl'.
Proof.
  revert jl s. induction ms as [|m ms IH]; intros jl s Hjl H; simpl in H; decomp; [exact Hjl|].
  match goal with E : writeMemberToFile _ _ _ = inr _ |- _ =>
    destruct (writeMemberToFile_file _ _ _ _ _ E) as (v & Hf) end.
  match goal with E : forM _ (terrain_job ?sf ?f) _ = inr _ |- _ =>
    pose proof (writes_none _ _ _ _ (writes_forM (fun _ => False) _ _
                                       (fun t => writes_terrain_job _ _ _ t)) E)
      as Hf2;
    pose proof (forM_post (terrain_job sf f) (fun j => jfilename j = f) _ _ _ _
                  (fun t s0 j s1 Ej => terrain_job_name _ _ _ _ _ _ Ej) E) as Hn end.
  eapply IH; [|exact H].
  rewrite Hf2, Hf. apply Forall_app. split.
  - exact (jobs_written_app _ _ [_] _ Hjl).
  - eapply Forall_impl; [|exact Hn]. intros j Hj. rewrite Hj. exists v. left. reflexivity.
Qed.

Lemma trial_loop_written self genFn n prev jl s g s' :
  (forall p, writes (fun _ => True) (genFn p)) -> (forall p, keeps_batches (genFn p)) ->
  jobs_written (trialDirectory self) (files s) jl ->
  Forall (jobs_written (trialDirectory self) (files s)) (batches s) ->
  trial_loop self genFn n prev jl s = inr (g, s') ->
  Forall (jobs_written (trialDirectory self) (files s')) (batches s').
Proof.
  intros Hw Hk. revert prev jl s.
  induction n as [|n IH]; intros prev jl s Hjl Hb H;
    simpl in H; unfold record_gen, submit in H; decomp; [exact Hb|].
  match goal with E : genFn _ _ = inr _ |- _ =>
    destruct (writes_grow _ _ _ _ _ (Hw _) E) as (new1 & F1);
    pose proof (Hk _ _ _ _ E) as B1 end.
  match goal with E : member_jobs _ _ _ _ = inr (?jl2, ?s2) |- _ =>
    destruct (writes_grow _ _ _ _ _ (writes_member_jobs _ _ _) E) as (new2 & F2);
    destruct (quiet_member_jobs _ _ _ _ _ _ E) as (_ & _ & B2);
    assert (Hjl' : jobs_written (trialDirectory self) (files s2) jl2)
      by (eapply member_jobs_written; [|exact E]; simpl; rewrite F1;
          apply jobs_written_app; exact Hjl) end.
  refine (IH _ _ _ _ _ H); simpl; [exact Hjl'|].
  rewrite B2. simpl. rewrite B1. apply Forall_app. split; [|constructor; auto].
  rewrite F2. simpl. rewrite F1, app_assoc.
  eapply Forall_impl; [|exact Hb]. intros jl0. apply jobs_written_app.
Qed.

(** X8: Every job of every batch a trial submits names, as its file, a member
    JSON file that was written to the trial directory during the trial
    (or before, for batches already submitted). *)
Theorem trial_jobs_have_member_files (self : Self) (dl : Learner) (s : St) (g : Generation)
    (s' : St) :
  Forall (jobs_written (trialDirectory self) (files s)) (batches s) ->
  beginTrial self dl s = inr (g, s') ->
  Forall (jobs_written (trialDirectory self) (files s')) (batches s').
Proof.
  intros Hb H. unfold beginTrial, beginTrialMaster in H. decomp.
  match goal with E : importSeedGeneration _ _ = inr _ |- _ =>
    pose proof (writes_none _ _ _ _ (writes_importSeedGeneration _ _) E) as F;
    destruct (quiet_importSeedGeneration _ _ _ _ E) as (_ & _ & B) end.
  eapply trial_loop_written; [| | |rewrite F, B; exact Hb|exact H].
  - intros p. eapply writes_mono; [|apply writes_generationGenerator]. auto.
  - intros p. apply keeps_generationGenerator.
  - constructor.
Qed.

Lemma trial_jobs_have_member_files_witness :
  exists g s',
    beginTrial (ex_self 2 1 (PList [PStr "hilly"]) ex_fs_noseed) indexLearner ex_st0
      = inr (g, s') /\
    Forall (jobs_written "/res/trial" (files s')) (batches s').
Proof.
  case_eq (beginTrial (ex_self 2 1 (PList [PStr "hilly"]) ex_fs_noseed) indexLearner ex_st0).
  - intros e E. vm_compute in E. discriminate E.
  - intros [g s'] E. exists g, s'. split; [reflexivity|].
    exact (trial_jobs_have_member_files (ex_self 2 1 (PList [PStr "hilly"]) ex_fs_noseed)
             indexLearner ex_st0 g s' (Forall_nil _) E).
Defined.

(** *** Setup and the files of a trial *)

Lemma str_app_assoc (a b c : string) : (a ++ b) ++ c = a ++ b ++ c.
Proof. induction a as [|x a IH]; simpl; [reflexivity|]. rewrite IH. reflexivity. Qed.

Lemma controller_setup_inv env name t st :
  controller_setup env name t = inr st ->
  exists trialPath,
    s_trialDirectory st = env_abspath env (RESOURCE_DIRECTORY_NAME ++ trialPath) /\
    s_dirs st = [s_trialDirectory st; s_trialDirectory st ++ "/" ++ GENERAL_DIRECTORY_NAME;
                 s_trialDirectory st ++ "/" ++ NEURAL_NET_DIRECTORY_NAME] /\
    s_logFileName st = s_trialDirectory st ++ "/" ++ LOG_FILE_NAME.
Proof.
  unfold controller_setup, learning_setup.
  destruct (load_config env name) as [[]|config]; try discriminate.
  destruct (getitem config "TrialProperties") as [|tp]; [discriminate|].
  destruct (getitem config "PathInfo") as [|pi]; [discriminate|].
  destruct (getitem pi "trialPath") as [|[]]; try discriminate.
  destruct (setup_terrains config t) as [|t']; [discriminate|].
  intros H. injection H as <-. simpl. eauto.
Qed.

(** X9: After [ControllerJobMaster._setup], the directories it creates are
    [trialDirectory], [trialDirectory/OutputMembers/] and
    [trialDirectory/NeuralNet/]; every file a trial run by the job master it
    sets up writes is either a JSON file whose path is [trialDirectory + "/"]
    followed by a name, or a text file whose path is
    [trialDirectory/NeuralNet/] followed by a name (the names are built from
    the configured [fileName] and are not otherwise constrained). *)
Theorem setup_trial_files (env : SetupEnv) (configFileName : string) (t0 : option Py)
    (st : Setup) (numProcesses : Z) (fsys : FS) (dl : Learner) (s : St) (g : Generation)
    (s' : St) :
  controller_setup env configFileName t0 = inr st ->
  beginTrial (self_of_setup st numProcesses fsys) dl s = inr (g, s') ->
  exists td new,
    s_dirs st = [td; td ++ "/" ++ GENERAL_DIRECTORY_NAME; td ++ "/" ++ NEURAL_NET_DIRECTORY_NAME] /\
    files s' = (new ++ files s)%list /\
    Forall (fun e => (exists b v, fst e = td ++ "/" ++ b /\ snd e = FJson v) \/
                     (exists b t, fst e = (td ++ "/" ++ NEURAL_NET_DIRECTORY_NAME) ++ b /\
                                  snd e = FText t)) new.
Proof.
  intros Hst H.
  destruct (controller_setup_inv _ _ _ _ Hst) as (tp & _ & Hdirs & _).
  destruct (writes_beginTrial _ _ _ _ _ H) as (new & F & Hnew).
  exists (s_trialDirectory st), new. split; [exact Hdirs|]. split; [exact F|].
  eapply Forall_impl; [|exact Hnew]. intros e [He|(b & t & Hp & Ht)]; [left; exact He|].
  right. exists b, t. rewrite !str_app_assoc. split; [exact Hp|exact Ht].
Qed.

Lemma setup_trial_files_witness :
  exists st g s',
    controller_setup ex_env "trial.yaml" None = inr st /\
    beginTrial (self_of_setup st 4 ex_fs_noseed) indexLearner ex_st0 = inr (g, s') /\
    exists td new,
      s_dirs st = [td; td ++ "/" ++ GENERAL_DIRECTORY_NAME;
                   td ++ "/" ++ NEURAL_NET_DIRECTORY_NAME] /\
      files s' = (new ++ files ex_st0)%list /\
      Forall (fun e => (exists b v, fst e = td ++ "/" ++ b /\ snd e = FJson v) \/
                       (exists b t, fst e = (td ++ "/" ++ NEURAL_NET_DIRECTORY_NAME) ++ b /\
                                    snd e = FText t)) new.
Proof.
  case_eq (controller_setup ex_env "trial.yaml" None).
  - intros e E. vm_compute in E. discriminate E.
  - intros st Est.
    case_eq (beginTrial (self_of_setup st 4 ex_fs_noseed) indexLearner ex_st0).
    + intros e E. pose proof Est as Est'. vm_compute in Est'. injection Est' as <-.
      vm_compute in E. discriminate E.
    + intros [g s'] E. exists st, g, s'. split; [reflexivity|]. split; [exact E|].
      exact (setup_trial_files ex_env "trial.yaml" None st 4 ex_fs_noseed indexLearner
               ex_st0 g s' Est E).
Defined.

(** *** The batches of a trial *)

Lemma trial_loop_sizes self dl tp gs tv n prev jl s g s' :
  getitem (config self) "TrialProperties" = inr tp ->
  getitem tp "generationSize" = inr (PInt gs) -> getitem tp "terrains" = inr tv ->
  trial_loop self (generationGenerator self dl) n prev jl s = inr (g, s') ->
  map (@List.length Job) (batches s') =
  (map (@List.length Job) (batches s) ++
   map (fun k => (List.length jl + S k * (Z.to_nat gs * iter_length tv))%nat) (seq 0 n))%list.
Proof.
  intros Htp Hgs Htv. revert prev jl s.
  induction n as [|n IH]; intros prev jl s H; simpl in H; unfold record_gen, submit in H; decomp.
  - simpl. rewrite app_nil_r. reflexivity.
  - match goal with E : generationGenerator _ _ _ _ = inr _ |- _ =>
      destruct (generationGenerator_gen _ _ _ _ _ _ _ _ Htp Hgs E) as [_ G2];
      pose proof (keeps_generationGenerator _ _ _ _ _ _ E) as B1 end.
    match goal with E : member_jobs _ _ _ _ = inr _ |- _ =>
      pose proof (member_jobs_length _ _ _ _ _ _ _ _ Htp Htv E) as L;
      destruct (quiet_member_jobs _ _ _ _ _ _ E) as (_ & _ & B2) end.
    rewrite (IH _ _ _ H). simpl. rewrite B2. simpl. rewrite B1, L.
    rewrite map_app, <- app_assoc. simpl. f_equal. f_equal; [lia|].
    rewrite <- seq_shift, map_map. apply map_ext. intros k. lia.
Qed.

(** X10: A trial with [generationCount = gc] submits [gc] batches (after any
    submitted before), and the [k]-th of them (from 1) holds
    [k * generationSize * len(iter(terrains))] jobs: the job list grows
    by one generation's jobs per batch. *)
Theorem trial_batch_sizes (self : Self) (dl : Learner) (tp tv : Py) (gc gs : Z) (s : St)
    (g : Generation) (s' : St) :
  getitem (config self) "TrialProperties" = inr tp ->
  getitem tp "generationCount" = inr (PInt gc) ->
  getitem tp "generationSize" = inr (PInt gs) -> getitem tp "terrains" = inr tv ->
  beginTrial self dl s = inr (g, s') ->
  map (@List.length Job) (batches s') =
  (map (@List.length Job) (batches s) ++
   map (fun k => (S k * (Z.to_nat gs * iter_length tv))%nat) (seq 0 (Z.to_nat gc)))%list.
Proof.
  intros Htp Hgc Hgs Htv H. unfold beginTrial, beginTrialMaster in H. decomp. unify_inr.
  simpl in *. unify_inr.
  match goal with E : importSeedGeneration _ _ = inr _ |- _ =>
    destruct (quiet_importSeedGeneration _ _ _ _ E) as (_ & _ & B) end.
  rewrite (trial_loop_sizes _ _ _ _ _ _ _ _ _ _ _ Htp Hgs Htv H), B. reflexivity.
Qed.

Lemma trial_batch_sizes_witness :
  exists g s',
    beginTrial (ex_self 2 1 (PList [PStr "hilly"]) ex_fs_noseed) indexLearner ex_st0
      = inr (g, s') /\
    map (@List.length Job) (batches s') =
    (map (@List.length Job) (batches ex_st0) ++
     map (fun k => (S k * (Z.to_nat 1 * iter_length (PList [PStr "hilly"])))%nat)
         (seq 0 (Z.to_nat 2)))%list.
Proof.
  case_eq (beginTrial (ex_self 2 1 (PList [PStr "hilly"]) ex_fs_noseed) indexLearner ex_st0).
  - intros e E. vm_compute in E. discriminate E.
  - intros [g s'] E. exists g, s'. split; [reflexivity|].
    exact (trial_batch_sizes (ex_self 2 1 (PList [PStr "hilly"]) ex_fs_noseed) indexLearner
             _ (PList [PStr "hilly"]) 2 1 ex_st0 g s' eq_refl eq_refl eq_refl eq_refl E).
Defined.

(** X11: With [generationCount <= 0] a trial is the import of the seed
    generation and nothing more: no generation is built, no job is
    submitted, and the seed generation is returned. [generationSize] is
    read all the same: without it the trial raises before the import. *)
Theorem trial_without_generations (self : Self) (dl : Learner) (tp : Py) (gc : Z) (s : St) :
  getitem (config self) "TrialProperties" = inr tp ->
  getitem tp "generationCount" = inr (PInt gc) -> gc <= 0 ->
  (forall v, getitem tp "generationSize" = inr v ->
     beginTrial self dl s = importSeedGeneration self s) /\
  (forall e, getitem tp "generationSize" = inl e -> beginTrial self dl s = inl e).
Proof.
  intros Htp Hgc Hn. unfold beginTrial, beginTrialMaster, geti.
  erewrite bind_step by (unfold lift; rewrite Htp; reflexivity).
  erewrite bind_step by (unfold lift; rewrite Hgc; reflexivity).
  split.
  - intros v Hv. erewrite bind_step by (unfold lift; rewrite Hv; reflexivity).
    erewrite bind_step by reflexivity. simpl.
    replace (Z.to_nat gc) with 0%nat by lia.
    unfold bind. simpl. destruct (importSeedGeneration self s) as [|[a s1]]; reflexivity.
  - intros e He. unfold bind at 1, lift at 1. rewrite He. reflexivity.
Qed.

Lemma trial_without_generations_witness :
  getitem (config (ex_self 0 4 (PStr "flat") ex_fs_seed)) "TrialProperties" =
    inr (PDict [("generationCount", PInt 0); ("generationSize", PInt 4);
                ("trialLength", PInt 100); ("terrains", PStr "flat")]) /\
  beginTrial (ex_self 0 4 (PStr "flat") ex_fs_seed) indexLearner ex_st0
    = importSeedGeneration (ex_self 0 4 (PStr "flat") ex_fs_seed) ex_st0.
Proof.
  split; [reflexivity|].
  apply (proj1 (trial_without_generations (ex_self 0 4 (PStr "flat") ex_fs_seed) indexLearner
                  _ 0 ex_st0 eq_refl eq_refl ltac:(lia)) (PInt 4) eq_refl).
Defined.

(** *** A seed file that does not load *)

Lemma forM_load_err (fsys : FS) (d : string) pre f post e s :
  Forall (fun file => exists j, json_load fsys (abspath fsys d ++ "/" ++ file) = inr j) pre ->
  json_load fsys (abspath fsys d ++ "/" ++ f) = inl e ->
  forM (pre ++ f :: post) (fun file =>
    let absFilePath := abspath fsys d ++ "/" ++ file in
    seedInput <- lift (json_load fsys absFilePath) ;;
    ret (mkMember seedInput)) s = inl e.
Proof.
  intros Hpre He. induction Hpre as [|file pre (j & Hj) _ IH]; cbn [app forM].
  - unfold bind at 1. unfold bind at 1, lift at 1. rewrite He. reflexivity.
  - erewrite bind_step by (unfold bind, lift; rewrite Hj; reflexivity).
    unfold bind at 1. cbv zeta in IH |- *. rewrite IH. reflexivity.
Qed.

(** X12: A trial whose seed directory holds a file that does not load as JSON
    raises the error of the first such file, in listing order, before any
    generation is built or any job submitted. *)
Theorem trial_fails_on_bad_seed (self : Self) (dl : Learner) (tp pi gsv : Py) (gc : Z)
    (d f : string) (pre post : list string) (e : PyErr) (s : St) :
  getitem (config self) "TrialProperties" = inr tp ->
  getitem tp "generationCount" = inr (PInt gc) -> getitem tp "generationSize" = inr gsv ->
  getitem (config self) "PathInfo" = inr pi -> getitem pi "seedDirectory" = inr (PStr d) ->
  isdir (fs self) d = true -> listdir (fs self) d = (pre ++ f :: post)%list ->
  Forall (fun file => exists j, json_load (fs self) (abspath (fs self) d ++ "/" ++ file) = inr j)
    pre ->
  json_load (fs self) (abspath (fs self) d ++ "/" ++ f) = inl e ->
  beginTrial self dl s = inl e.
Proof.
  intros Htp Hgc Hgs Hpi Hsd Hd Hl Hpre He. unfold beginTrial, beginTrialMaster, geti.
  erewrite bind_step by (unfold lift; rewrite Htp; reflexivity).
  erewrite bind_step by (unfold lift; rewrite Hgc; reflexivity).
  erewrite bind_step by (unfold lift; rewrite Hgs; reflexivity).
  erewrite bind_step by reflexivity.
  assert (Hi : importSeedGeneration self s = inl e).
  { unfold importSeedGeneration, geti.
    erewrite bind_step by (unfold lift; rewrite Hpi; reflexivity).
    erewrite bind_step by (unfold lift; rewrite Hsd; reflexivity).
    erewrite bind_step by reflexivity.
    rewrite Hd, Hl. unfold bind at 1. rewrite (forM_load_err _ _ _ _ post e _ Hpre He).
    reflexivity. }
  unfold bind at 1. rewrite Hi. reflexivity.
Qed.

Lemma trial_fails_on_bad_seed_witness :
  listdir ex_fs_badseed "seeds" = ["m0.json"; "notes.txt"] /\
  beginTrial (ex_self 2 1 (PStr "flat") ex_fs_badseed) indexLearner ex_st0 = inl ValueError.
Proof.
  split; [reflexivity|].
  apply (trial_fails_on_bad_seed (ex_self 2 1 (PStr "flat") ex_fs_badseed) indexLearner
           _ _ (PInt 1) 2 "seeds" "notes.txt" ["m0.json"] [] ValueError ex_st0
           eq_refl eq_refl eq_refl eq_refl eq_refl eq_refl eq_refl).
  - repeat constructor. exists ex_seed_member. reflexivity.
  - reflexivity.
Defined.

(** *** The members of a generated generation *)

Lemma population_out self name gid l s ys s' :
  forM l (fun component =>
    c <- postprocess self name gid component ;;
    _ <- record_produced name gid c ;;
    ret c) s = inr (ys, s') ->
  produced s' = (produced s ++ map (fun c => (name, gid, c)) ys)%list /\
  Forall (fun c => getitem c "scores" = inr (PList [])) ys.
Proof.
  revert s ys. induction l as [|c l IH]; intros s ys H; simpl in H; decomp.
  - simpl. rewrite app_nil_r. auto.
  - unfold record_produced in *. decomp.
    match goal with E : postprocess _ _ _ _ _ = inr _ |- _ =>
      destruct (postprocess_inv _ _ _ _ _ _ _ E) as (params & _ & Hsc & _);
      destruct (quiet_postprocess _ _ _ _ _ _ _ E) as (Q1 & _ & _) end.
    match goal with E : forM _ _ _ = inr _ |- _ => destruct (IH _ _ E) as (R1 & R2) end.
    simpl in R1. rewrite R1, Q1. simpl. rewrite <- app_assoc. auto.
Qed.

Lemma generateComponentPopulation_out self dl name comps prev gid s pop s' :
  generateComponentPopulation self dl name comps prev gid s = inr (pop, s') ->
  produced s' = (produced s ++ map (fun c => (name, gid, c)) pop)%list /\
  Forall (fun c => getitem c "scores" = inr (PList [])) pop.
Proof.
  intros H. unfold generateComponentPopulation in H. decomp.
  match goal with E : createEmptyComponent _ _ _ _ = inr _ |- _ =>
    destruct (quiet_createEmptyComponent _ _ _ _ _ _ E) as (Q1 & _ & _) end.
  match goal with E : call_learner _ _ _ _ _ _ = inr _ |- _ =>
    destruct (quiet_call_learner _ _ _ _ _ _ _ _ E) as (Q2 & _ & _) end.
  destruct (population_out _ _ _ _ _ _ _ H) as [R1 R2]. rewrite R1, Q2, Q1. auto.
Qed.

Lemma populations_out self dl comps (cs : list (string * Py)) prev gid s pops s' :
  forM cs (fun kv =>
    population <- generateComponentPopulation self dl (fst kv) comps prev gid ;;
    ret (fst kv, population)) s = inr (pops, s') ->
  map fst pops = map fst cs /\
  (exists new, produced s' = (produced s ++ new)%list) /\
  (forall c pop x, In (c, pop) pops -> In x pop ->
     In (c, gid, x) (produced s') /\ getitem x "scores" = inr (PList [])).
Proof.
  revert s pops. induction cs as [|[k v] cs IH]; intros s pops H; simpl in H; decomp.
  - split; [reflexivity|]. split; [exists []; rewrite app_nil_r; reflexivity|].
    intros c pop x [].
  - match goal with E : generateComponentPopulation _ _ _ _ _ _ _ = inr _ |- _ =>
      destruct (generateComponentPopulation_out _ _ _ _ _ _ _ _ _ E) as (A1 & A2) end.
    match goal with E : forM _ _ _ = inr _ |- _ =>
      destruct (IH _ _ E) as (B1 & (new & B2) & B3) end.
    simpl. split; [f_equal; exact B1|].
    split; [eexists; rewrite B2, A1, <- app_assoc; reflexivity|].
    intros c pop x [Heq|Hin] Hx.
    + injection Heq as <- <-. split; [|rewrite Forall_forall in A2; auto].
      rewrite B2, A1. apply in_or_app. left. apply in_or_app. right.
      apply in_map_iff. eauto.
    + eapply B3; eassumption.
Qed.

(** X13: Every member of the generation [generationGenerator] builds holds, for
    each component of the configuration (each key not in
    [PROTECTED_TERMS]), a candidate that the population generator handed
    on for that component in this generation (noted in [produced]); the
    candidate has been post-processed: its [scores] list is empty. *)
Theorem generation_members_hold_candidates (self : Self) (dl : Learner)
    (d : list (string * Py)) (prev : Generation) (s : St) (gen : Generation) (s' : St) :
  config self = PDict d -> NoDup (map fst d) ->
  generationGenerator self dl prev s = inr (gen, s') ->
  Forall (fun m => forall c v, In (c, v) d -> existsb (String.eqb c) PROTECTED_TERMS = false ->
            exists x, getitem (components m) c = inr x /\
              getitem x "scores" = inr (PList []) /\
              In (c, getNewGenerationID prev, x) (produced s')) (gmembers gen).
Proof.
  intros Hd Hnd H. unfold generationGenerator in H. decomp.
  rewrite Hd in Hm. destruct (getComponents_inv _ _ _ _ Hm) as [-> ->].
  unfold generateComponentPopulations in Hm0.
  destruct (populations_out _ _ _ _ _ _ _ _ _ Hm0) as (P1 & _ & P3).
  match type of P1 with map fst ?pops = _ => set (a1 := pops) in * end.
  assert (Hndp : NoDup (map fst a1)) by (rewrite P1; apply nodup_filter_keys; exact Hnd).
  match goal with E : createNewGeneration _ _ _ _ = inr _ |- _ =>
    destruct (quiet_createNewGeneration _ _ _ _ _ _ E) as (Q1 & _ & _);
    unfold createNewGeneration in E; decomp end.
  rewrite fold_addMember. simpl. rewrite Q1.
  eapply forM_post; [|eassumption].
  intros id t1 m t2 E. destruct (member_entries_of_populations _ _ _ _ _ _ Hndp E)
    as (d' & Hd' & Hpop & _).
  intros c v Hin Hprot.
  assert (Hc : In c (map fst a1)).
  { rewrite P1. apply in_map_iff. exists (c, v). split; [reflexivity|].
    apply filter_In. split; [exact Hin|]. simpl. rewrite Hprot. reflexivity. }
  apply in_map_iff in Hc. destruct Hc as ([c' pop] & Hc' & Hcp). simpl in Hc'. subst c'.
  destruct (Hpop c pop Hcp) as (x & Hx & Hxp).
  exists x. rewrite Hd'. simpl. rewrite Hx. split; [reflexivity|].
  destruct (P3 _ _ _ Hcp Hxp) as [Hr Hs]. auto.
Qed.

Lemma generation_members_hold_candidates_witness :
  exists gen s',
    generationGenerator (ex_self 2 2 (PStr "flat") ex_fs_noseed) indexLearner (mkGen (-1) [])
      ex_st0 = inr (gen, s') /\
    Forall (fun m => forall c v, In (c, v) (match config (ex_self 2 2 (PStr "flat") ex_fs_noseed)
                                          with PDict d => d | _ => [] end) ->
              existsb (String.eqb c) PROTECTED_TERMS = false ->
              exists x, getitem (components m) c = inr x /\
                getitem x "scores" = inr (PList []) /\
                In (c, getNewGenerationID (mkGen (-1) []), x) (produced s')) (gmembers gen).
Proof.
  case_eq (generationGenerator (ex_self 2 2 (PStr "flat") ex_fs_noseed) indexLearner
             (mkGen (-1) []) ex_st0).
  - intros e E. vm_compute in E. discriminate E.
  - intros [gen s'] E. exists gen, s'. split; [reflexivity|].
    apply (generation_members_hold_candidates (ex_self 2 2 (PStr "flat") ex_fs_noseed)
             indexLearner _ (mkGen (-1) []) ex_st0 gen s' eq_refl).
    + repeat constructor; simpl; intuition discriminate.
    + exact E.
Defined.

(** *** The member files of a generation *)

Lemma member_jobs_files self pi fn tp tv ts ms jl s jl' s' :
  getitem (config self) "PathInfo" = inr pi -> getitem pi "fileName" = inr (PStr fn) ->
  getitem (config self) "TrialProperties" = inr tp -> getitem tp "terrains" = inr tv ->
  py_iter tv = inr ts ->
  member_jobs self ms jl s = inr (jl', s') ->
  exists names,
    Forall2 (fun m b => exists gid mid,
               getitem (components m) "generationID" = inr gid /\
               getitem (components m) "memberID" = inr mid /\
               b = fn ++ "_" ++ py_str gid ++ "_" ++ py_str mid ++ ".json") ms names /\
    map jfilename jl' =
      (map jfilename jl ++ List.concat (map (fun b => repeat b (List.length ts)) names))%list /\
    files s' = (rev (map (fun mb => ((trialDirectory self ++ "/" ++ snd mb)%string,
                                     FJson (components (fst mb))))
                         (combine ms names)) ++ files s)%list.
Proof.
  intros Hpi Hfn Htp Htv Hts. revert jl s.
  induction ms as [|m ms IH]; intros jl s H; simpl in H; decomp.
  - exists []. simpl. rewrite app_nil_r. auto.
  - match goal with E : writeMemberToFile _ _ _ = inr _ |- _ =>
      pose proof (writeMemberToFile_file _ _ _ _ _ E) as (v & Hf);
      unfold writeMemberToFile, write_file in E; decomp end.
    unify_inr. simpl in *. unify_inr.
    match goal with E : forM _ (terrain_job ?sf ?f) _ = inr _ |- _ =>
      pose proof (writes_none _ _ _ _ (writes_forM (fun _ => False) _ _
                                         (fun t => writes_terrain_job _ _ _ t)) E) as Hf2;
      pose proof (forM_post (terrain_job sf f) (fun j => jfilename j = f) _ _ _ _
                    (fun t s0 j s1 Ej => terrain_job_name _ _ _ _ _ _ Ej) E) as Hn;
      pose proof (forM_inr _ _ _ _ _ E) as Hlen end.
    match goal with E : member_jobs _ _ _ _ = inr _ |- _ =>
      destruct (IH _ _ E) as (names & N1 & N2 & N3) end.
    eexists (_ :: names). split; [constructor; [do 2 eexists; split; [eassumption|];
                                                 split; [eassumption|reflexivity]|exact N1]|].
    split.
    + rewrite N2, map_app, <- app_assoc. simpl. f_equal. f_equal.
      rewrite <- Hlen. clear -Hn. induction Hn as [|j js Hj _ IHn]; simpl; [reflexivity|].
      rewrite Hj, IHn. reflexivity.
    + rewrite N3, Hf2. simpl. rewrite <- app_assoc. reflexivity.
Qed.

Lemma Forall2_determined {A B C} (R1 : A -> B -> Prop) (R2 : A -> C -> Prop) (f : B -> C)
    (l : list A) (is : list B) (cs : list C) :
  (forall a i c, R1 a i -> R2 a c -> c = f i) ->
  Forall2 R1 l is -> Forall2 R2 l cs -> cs = map f is.
Proof.
  intros Hf H1. revert cs. induction H1 as [|a i l is Hai _ IH]; intros cs H2;
    inversion H2; subst; [reflexivity|].
  simpl. f_equal; [eapply Hf; eassumption|]. apply IH. assumption.
Qed.

(** X14: When the member loop of a trial runs over a generation built by
    [createNewGeneration] with ID [g] and [n] members, it writes, in
    member order, the file [trialDirectory/fileName_g_i.json] holding
    member [i]'s components, and appends for member [i] one job per
    terrain, each naming [fileName_g_i.json]. This needs no component to
    be named [memberID] or [generationID]. *)
Theorem generation_member_files (self : Self) (pops : list (string * list Py)) (g : Z)
    (s0 : St) (gen : Generation) (s1 : St) (tp pi tv : Py) (n : Z) (fn : string)
    (ts : list Py) (jl : list Job) (s : St) (jl' : list Job) (s' : St) :
  getitem (config self) "TrialProperties" = inr tp ->
  getitem tp "generationSize" = inr (PInt n) ->
  getitem (config self) "PathInfo" = inr pi -> getitem pi "fileName" = inr (PStr fn) ->
  getitem tp "terrains" = inr tv -> py_iter tv = inr ts ->
  ~ In "memberID" (map fst pops) -> ~ In "generationID" (map fst pops) ->
  createNewGeneration (config self) pops g s0 = inr (gen, s1) ->
  member_jobs self (gmembers gen) jl s = inr (jl', s') ->
  map jfilename jl' =
    (map jfilename jl ++
     List.concat (map (fun i => repeat (member_file_name fn g i) (List.length ts))
                 (seq 0 (Z.to_nat n))))%list /\
  files s' =
    (rev (map (fun mi => ((trialDirectory self ++ "/" ++ member_file_name fn g (snd mi))%string,
                          FJson (components (fst mi))))
              (combine (gmembers gen) (seq 0 (Z.to_nat n)))) ++ files s)%list.
Proof.
  intros Htp Hgs Hpi Hfn Htv Hts Hm Hg Hgen Hjobs.
  pose proof (createNewGeneration_ids _ _ _ _ _ _ _ _ Htp Hgs Hm Hg Hgen) as Hids.
  destruct (member_jobs_files _ _ _ _ _ _ _ _ _ _ _ Hpi Hfn Htp Htv Hts Hjobs)
    as (names & N1 & N2 & N3).
  assert (Hnames : names = map (member_file_name fn g) (seq 0 (Z.to_nat n))).
  { eapply Forall2_determined; [|exact Hids|exact N1].
    intros m i b [Hmid Hgid] (gid & mid & Eg & Em & ->).
    rewrite Hgid in Eg. rewrite Hmid in Em. injection Eg as <-. injection Em as <-.
    reflexivity. }
  subst names. split.
  - rewrite N2, map_map. reflexivity.
  - rewrite N3. f_equal. f_equal.
    clear. generalize (seq 0 (Z.to_nat n)). induction (gmembers gen) as [|m ms IH];
      intros [|i is]; simpl; try reflexivity. rewrite IH. reflexivity.
Qed.

Lemma generation_member_files_witness :
  exists gen s1 jl' s',
    createNewGeneration (config (ex_self 2 2 (PList [PStr "a"; PStr "b"]) ex_fs_noseed))
      [("leg", [PInt 0; PInt 1])] 0 ex_st0 = inr (gen, s1) /\
    member_jobs (ex_self 2 2 (PList [PStr "a"; PStr "b"]) ex_fs_noseed) (gmembers gen) []
      ex_st0 = inr (jl', s') /\
    map jfilename jl' =
      (map jfilename [] ++
       List.concat (map (fun i => repeat (member_file_name "f" 0 i) 2) (seq 0 2)))%list /\
    files s' =
      (rev (map (fun mi => (("/res/trial" ++ "/" ++ member_file_name "f" 0 (snd mi))%string,
                            FJson (components (fst mi))))
                (combine (gmembers gen) (seq 0 2))) ++ files ex_st0)%list.
Proof.
  case_eq (createNewGeneration (config (ex_self 2 2 (PList [PStr "a"; PStr "b"]) ex_fs_noseed))
             [("leg", [PInt 0; PInt 1])] 0 ex_st0).
  - intros e E. vm_compute in E. discriminate E.
  - intros [gen s1] E1.
    case_eq (member_jobs (ex_self 2 2 (PList [PStr "a"; PStr "b"]) ex_fs_noseed) (gmembers gen)
               [] ex_st0).
    + intros e E. pose proof E1 as E1'. vm_compute in E1'. injection E1' as <- _.
      vm_compute in E. discriminate E.
    + intros [jl' s'] E2. exists gen, s1, jl', s'.
      split; [reflexivity|]. split; [exact E2|].
      exact (generation_member_files (ex_self 2 2 (PList [PStr "a"; PStr "b"]) ex_fs_noseed)
               [("leg", [PInt 0; PInt 1])] 0 ex_st0 gen s1 _ _ _ 2 "f" [PStr "a"; PStr "b"]
               [] ex_st0 jl' s' eq_refl eq_refl eq_refl eq_refl eq_refl eq_refl
               ltac:(simpl; intuition discriminate) ltac:(simpl; intuition discriminate)
               E1 E2).
Defined.
